(** * Experiment analysis: grouping, aggregation and derived series

    A shallow embedding of [docs/experement_analysis.py]: the duration parser
    [time_to_seconds], the grouping loop that fills [configs], the ordering
    [sorted_configs], the per-configuration aggregation loop and the two
    derived series ([unique_*] and [ratio]).

    Conventions of the embedding.
    - A Python [str] is a list of code points below 256 ([list ascii]).
    - A Python [float] is an IEEE-754 binary64 value, [spec_float] with
      precision 53 and maximal exponent 1024; every operation rounds to
      nearest, ties to even.
    - A Python [int] is a [Z].
    - A statement that may raise is a computation in the [result] monad.
    - [np.mean] is a parameter of the aggregation; [np.unique], [np.isnan]
      and the two kinds of array indexing are modelled on lists. *)

From Stdlib Require Import Ascii String List ZArith Lia Bool Permutation Sorted.
From Stdlib Require Import Floats.SpecFloat.
From Stdlib Require DecimalString.
Import ListNotations.
Open Scope Z_scope.

(** ** Exceptions *)

Inductive exn : Type :=
| IndexError
| ValueError
| OverflowError.

Inductive result (A : Type) : Type :=
| Ok (a : A)
| Raise (e : exn).

Arguments Ok {A} a.
Arguments Raise {A} e.

Definition bind {A B : Type} (c : result A) (k : A -> result B) : result B :=
  match c with
  | Ok a => k a
  | Raise e => Raise e
  end.

Notation "x <- c ;; k" := (bind c (fun x => k))
  (at level 61, c at next level, right associativity).

Notation "' pat <- c ;; k" := (bind c (fun x => let 'pat := x in k))
  (at level 61, pat pattern, c at next level, right associativity).

Fixpoint mapM {A B : Type} (f : A -> result B) (l : list A) : result (list B) :=
  match l with
  | [] => Ok []
  | a :: l' => b <- f a ;; bs <- mapM f l' ;; Ok (b :: bs)
  end.

(** [try: body / except: return dflt] *)
Definition try_except {A : Type} (body : result A) (dflt : A) : result A :=
  match body with
  | Ok a => Ok a
  | Raise _ => Ok dflt
  end.

(** ** Strings *)

Module PyStr.

Definition str : Type := list ascii.

Definition lit (s : string) : str := list_ascii_of_string s.

Definition code (c : ascii) : Z := Z.of_N (N_of_ascii c).

Definition between (lo hi : Z) (c : ascii) : bool :=
  (lo <=? code c) && (code c <=? hi).

(** [str.isspace] on one code point: the separators of [str.split()] and
    the characters removed by [str.strip()]. *)
Definition is_space (c : ascii) : bool :=
  between 9 13 c || between 28 32 c || (code c =? 133) || (code c =? 160).

(** The blanks skipped around a numeral by [int()] and [float()]: code
    points below 127 count only when they are C white space, the others
    when they are Unicode white space. *)
Definition is_num_space (c : ascii) : bool :=
  between 9 13 c || (code c =? 32) || (code c =? 133) || (code c =? 160).

Definition is_digit (c : ascii) : bool := between 48 57 c.

Definition colon : ascii := ":"%char.
Definition dot : ascii := "."%char.
Definition underscore : ascii := "_"%char.

(** [s.split(sep)] for a one-character separator. *)
Fixpoint split_on (sep : ascii) (s : str) : list str :=
  match s with
  | [] => [[]]
  | c :: s' =>
    if Ascii.eqb c sep then [] :: split_on sep s'
    else match split_on sep s' with
         | w :: ws => (c :: w) :: ws
         | [] => [[c]]
         end
  end.

(** [s.split(sep, 1)] *)
Fixpoint split_once (sep : ascii) (s : str) : list str :=
  match s with
  | [] => [[]]
  | c :: s' =>
    if Ascii.eqb c sep then [[]; s']
    else match split_once sep s' with
         | w :: ws => (c :: w) :: ws
         | [] => [[c]]
         end
  end.

(** [s.split()]: the maximal runs of characters that are not white space. *)
Fixpoint split_ws (s : str) : list str :=
  match s with
  | [] => []
  | c :: s' =>
    if is_space c then split_ws s'
    else match s' with
         | [] => [[c]]
         | d :: _ =>
           if is_space d then [c] :: split_ws s'
           else match split_ws s' with
                | w :: ws => (c :: w) :: ws
                | [] => [[c]]
                end
         end
  end.

Fixpoint drop_while (p : ascii -> bool) (s : str) : str :=
  match s with
  | [] => []
  | c :: s' => if p c then drop_while p s' else s
  end.

Fixpoint take_while (p : ascii -> bool) (s : str) : str :=
  match s with
  | [] => []
  | c :: s' => if p c then c :: take_while p s' else []
  end.

Definition strip_with (p : ascii -> bool) (s : str) : str :=
  rev (drop_while p (rev (drop_while p s))).

(** [s.strip()] *)
Definition strip (s : str) : str := strip_with is_space s.

(** [l[0]], [l[1]] and [l[-1]] *)
Definition item0 {A : Type} (l : list A) : result A :=
  match l with
  | x :: _ => Ok x
  | [] => Raise IndexError
  end.

Definition item1 {A : Type} (l : list A) : result A :=
  match l with
  | _ :: x :: _ => Ok x
  | _ => Raise IndexError
  end.

Fixpoint item_last {A : Type} (l : list A) : result A :=
  match l with
  | [] => Raise IndexError
  | [x] => Ok x
  | _ :: l' => item_last l'
  end.

Definition str_eqb (a b : str) : bool :=
  if list_eq_dec ascii_dec a b then true else false.

End PyStr.

Import PyStr.

(** ** Numbers *)

Module PyNum.

Definition prec : Z := 53.
Definition emax : Z := 1024.

Definition float64 : Type := spec_float.

Definition fadd : float64 -> float64 -> float64 := SFadd prec emax.
Definition fdiv : float64 -> float64 -> float64 := SFdiv prec emax.
Definition flt : float64 -> float64 -> bool := SFltb.

(** The binary64 nearest to [m * 2^e]. *)
Definition of_dyadic (m e : Z) : float64 := binary_normalize prec emax m e false.

Definition fzero : float64 := S754_zero false.
Definition nan : float64 := S754_nan.

Definition isnan (x : float64) : bool :=
  match x with
  | S754_nan => true
  | _ => false
  end.

Definition is_inf (x : float64) : bool :=
  match x with
  | S754_infinity _ => true
  | _ => false
  end.

(** The conversion of the [int] operand of [int + float]: it raises when
    the integer rounds beyond the largest finite binary64. *)
Definition float_of_int (n : Z) : result float64 :=
  let x := of_dyadic n 0 in
  if is_inf x then Raise OverflowError else Ok x.

(** The binary64 nearest to [(-1)^neg * m * 10^e], for [0 <= m]. *)
Definition dec_to_float (neg : bool) (m e : Z) : float64 :=
  if m =? 0 then S754_zero neg
  else if 0 <=? e then
    binary_normalize prec emax (cond_Zopp neg (m * 10 ^ e)) 0 false
  else
    let '(q, e', l) := SFdiv_core_binary prec emax m 0 (10 ^ (- e)) 0 in
    binary_round_aux prec emax neg q e' l.

Definition digit_val (c : ascii) : Z := code c - 48.

Definition digits_value (ds : str) : Z :=
  fold_left (fun acc c => 10 * acc + digit_val c) ds 0.

(** An optional sign in front of a numeral. *)
Definition take_sign (s : str) : bool * str :=
  match s with
  | c :: r =>
    if Ascii.eqb c "-"%char then (true, r)
    else if Ascii.eqb c "+"%char then (false, r)
    else (false, s)
  | [] => (false, [])
  end.

(** The digits of [digit ("_"? digit)*], or [None] when [s] has another
    shape. *)
Fixpoint digit_part (s : str) : option str :=
  match s with
  | [] => None
  | c :: s' =>
    if is_digit c then
      match s' with
      | [] => Some [c]
      | d :: s'' =>
        if Ascii.eqb d underscore then option_map (cons c) (digit_part s'')
        else option_map (cons c) (digit_part s')
      end
    else None
  end.

(** The interpreter's default limit on the digits of a decimal numeral
    converted by [int()]. *)
Definition int_max_str_digits : Z := 4300.

(** [int(s)] *)
Definition py_int (s : str) : result Z :=
  let '(neg, body) := take_sign (strip_with is_num_space s) in
  match digit_part body with
  | Some ds =>
    if int_max_str_digits <? Z.of_nat (length ds) then Raise ValueError
    else Ok (cond_Zopp neg (digits_value ds))
  | None => Raise ValueError
  end.

(** Underscores in a [float()] numeral must stand between two digits. *)
Fixpoint underscores_ok_from (prev : ascii) (s : str) : bool :=
  match s with
  | [] => negb (Ascii.eqb prev underscore)
  | c :: s' =>
    (if Ascii.eqb c underscore then is_digit prev
     else negb (Ascii.eqb prev underscore) || is_digit c)
    && underscores_ok_from c s'
  end.

Definition underscores_ok (s : str) : bool := underscores_ok_from Ascii.zero s.

Definition lower (c : ascii) : ascii :=
  if between 65 90 c then ascii_of_N (N_of_ascii c + 32) else c.

Definition parse_inf_or_nan (neg : bool) (body : str) : option float64 :=
  let l := map lower body in
  if str_eqb l (lit "inf") || str_eqb l (lit "infinity")
  then Some (S754_infinity neg)
  else if str_eqb l (lit "nan") then Some S754_nan
  else None.

(** A decimal numeral [digits? ("." digits?)? ([eE] sign? digits)?] with at
    least one mantissa digit, as the pair (mantissa, power of ten). *)
Definition parse_decimal (body : str) : option (Z * Z) :=
  let ip := take_while is_digit body in
  let r1 := drop_while is_digit body in
  let '(fp, r2) :=
    match r1 with
    | c :: r =>
      if Ascii.eqb c dot then (take_while is_digit r, drop_while is_digit r)
      else ([], r1)
    | [] => ([], [])
    end in
  match ip ++ fp with
  | [] => None
  | ds =>
    match r2 with
    | [] => Some (digits_value ds, - Z.of_nat (length fp))
    | c :: r3 =>
      if Ascii.eqb c "e"%char || Ascii.eqb c "E"%char then
        let '(eneg, ed) := take_sign r3 in
        match ed with
        | [] => None
        | _ =>
          if forallb is_digit ed
          then Some (digits_value ds,
                     cond_Zopp eneg (digits_value ed) - Z.of_nat (length fp))
          else None
        end
      else None
    end
  end.

(** [float(s)] *)
Definition py_float (s : str) : result float64 :=
  let t := strip_with is_num_space s in
  if underscores_ok t then
    let '(neg, body) := take_sign (filter (fun c => negb (Ascii.eqb c underscore)) t) in
    match parse_decimal body with
    | Some (m, e) => Ok (dec_to_float neg m e)
    | None =>
      match parse_inf_or_nan neg body with
      | Some x => Ok x
      | None => Raise ValueError
      end
    end
  else Raise ValueError.

(** [min(l)] and [max(l)]: the first extremal element under [<], [>]. *)
Definition py_min (l : list float64) : result float64 :=
  match l with
  | [] => Raise ValueError
  | x :: l' => Ok (fold_left (fun m y => if flt y m then y else m) l' x)
  end.

Definition py_max (l : list float64) : result float64 :=
  match l with
  | [] => Raise ValueError
  | x :: l' => Ok (fold_left (fun m y => if flt m y then y else m) l' x)
  end.

(** Left-to-right summation divided by the count: an instance of the
    arithmetic mean used to run the model on concrete data.  [np.mean]
    adds the values in pairs once there are eight or more of them, so the
    two agree on the short lists of the sample inputs only. *)
Definition mean_seq (l : list float64) : float64 :=
  fdiv (fold_left fadd l fzero) (of_dyadic (Z.of_nat (length l)) 0).

End PyNum.

Import PyNum.

(** ** Duration parser *)

(** A JSON value stored under [ComputationTime]. *)
#[warnings="-register-all"]
Inductive value : Type :=
| VNone
| VBool (b : bool)
| VInt (n : Z)
| VFloat (x : float64)
| VStr (s : str)
| VList (l : list value)
| VDict (d : list (str * value)).

(** The body of the [try] block of [time_to_seconds]. *)
Definition time_to_seconds_try (t : str) : result float64 :=
  match split_on colon t with
  | [h; m; s] =>
    match firstn 2 (split_on dot s ++ [lit "0"]) with
    | [s; ms] =>
      hv <- py_int h ;;
      mv <- py_int m ;;
      sv <- py_float s ;;
      iv <- float_of_int (hv * 3600 + mv * 60) ;;
      msv <- py_float (lit "0." ++ ms) ;;
      Ok (fadd (fadd iv sv) msv)
    | _ => Raise ValueError
    end
  | _ => Raise ValueError
  end.

(** [time_to_seconds(t)]. The fallback [0] is the integer zero, which
    every later use reads as the float [0.0]. *)
Definition time_to_seconds (t : value) : result float64 :=
  match t with
  | VStr s => try_except (time_to_seconds_try s) fzero
  | _ => Ok fzero
  end.

(** ** Records and groups *)

Record experiment : Type := {
  Configuration : str;
  AlgorithmType : str;
  Makespan : float64;
  ComputationTime : value;
  TaskCount : Z
}.

Record group : Type := {
  PSO : list experiment;
  GA : option experiment
}.

(** [configs]: a dictionary in insertion order. *)
Definition dict : Type := list (str * group).

Fixpoint get (k : str) (d : dict) : option group :=
  match d with
  | [] => None
  | (k', g) :: d' => if str_eqb k k' then Some g else get k d'
  end.

Fixpoint update (k : str) (f : group -> group) (d : dict) : dict :=
  match d with
  | [] => []
  | (k', g) :: d' =>
    if str_eqb k k' then (k', f g) :: d' else (k', g) :: update k f d'
  end.

Definition ga_is_none (o : option group) : bool :=
  match o with
  | Some {| GA := None |} => true
  | _ => false
  end.

(** One iteration of the grouping loop. *)
Definition group_step (configs : dict) (exp : experiment) : dict :=
  let config := Configuration exp in
  let configs :=
    match get config configs with
    | None => configs ++ [(config, {| PSO := []; GA := None |})]
    | Some _ => configs
    end in
  if str_eqb (AlgorithmType exp) (lit "Pso") then
    update config (fun g => {| PSO := PSO g ++ [exp]; GA := GA g |}) configs
  else if str_eqb (AlgorithmType exp) (lit "Genetic")
          && ga_is_none (get config configs) then
    update config (fun g => {| PSO := PSO g; GA := Some exp |}) configs
  else configs.

Definition group_experiments (experiments : list experiment) : dict :=
  fold_left group_step experiments [].

(** ** Ordering of the configurations *)

(** [int(x[0].split(':')[0].split()[-1])] *)
Definition ordinal_token (config_name : str) : result str :=
  pre <- item0 (split_on colon config_name) ;;
  item_last (split_ws pre).

Definition config_ordinal (config_name : str) : result Z :=
  tok <- ordinal_token config_name ;;
  py_int tok.

Definition sort_key (x : str * group) : result Z := config_ordinal (fst x).

Fixpoint insert_by_key {A : Type} (x : Z * A) (l : list (Z * A)) : list (Z * A) :=
  match l with
  | [] => [x]
  | y :: l' => if fst x <=? fst y then x :: l else y :: insert_by_key x l'
  end.

(** The stable ascending sort on the keys. *)
Definition sort_by_key {A : Type} (l : list (Z * A)) : list (Z * A) :=
  fold_right insert_by_key [] l.

(** [sorted(l, key=key)]: every key is computed first. *)
Definition sorted {A : Type} (key : A -> result Z) (l : list A) : result (list A) :=
  ks <- mapM key l ;;
  Ok (map snd (sort_by_key (combine ks l))).

Definition sorted_configs (configs : dict) : result (list (str * group)) :=
  sorted sort_key configs.

(** ** Arrays *)

(** [a[idx]] for an array of indices. *)
Definition take {A : Type} (a : list A) (idx : list nat) : result (list A) :=
  mapM (fun i => match nth_error a i with
                 | Some x => Ok x
                 | None => Raise IndexError
                 end) idx.

(** [a[mask]] for a boolean mask, which must have the length of [a]. *)
Definition select {A : Type} (a : list A) (mask : list bool) : result (list A) :=
  if Nat.eqb (length a) (length mask)
  then Ok (map fst (filter snd (combine a mask)))
  else Raise IndexError.

Fixpoint first_of_runs (prev : option Z) (l : list (Z * nat)) : list (Z * nat) :=
  match l with
  | [] => []
  | (v, i) :: l' =>
    match prev with
    | Some p => if v =? p then first_of_runs (Some v) l'
                else (v, i) :: first_of_runs (Some v) l'
    | None => (v, i) :: first_of_runs (Some v) l'
    end
  end.

(** [np.unique(a, return_index=True)[1]]: a stable argsort, then the first
    position of every run of equal values.  The values are compared as
    integers, which is what the array made of the list does when every
    value fits 64 bits. *)
Definition unique_index (a : list Z) : list nat :=
  map snd (first_of_runs None (sort_by_key (combine a (seq 0 (length a))))).

(** ** Aggregation *)

(** The parallel lists filled by the aggregation loop. *)
Record columns : Type := {
  config_names : list str;
  pso_avg_makespan : list float64;
  pso_min_makespan : list float64;
  pso_max_makespan : list float64;
  ga_makespan : list float64;
  pso_avg_time : list float64;
  pso_min_time : list float64;
  pso_max_time : list float64;
  ga_time : list float64;
  task_counts : list Z
}.

Definition no_columns : columns :=
  {| config_names := []; pso_avg_makespan := []; pso_min_makespan := [];
     pso_max_makespan := []; ga_makespan := []; pso_avg_time := [];
     pso_min_time := []; pso_max_time := []; ga_time := [];
     task_counts := [] |}.

Definition push_name (c : columns) (label : str) : columns :=
  {| config_names := config_names c ++ [label];
     pso_avg_makespan := pso_avg_makespan c;
     pso_min_makespan := pso_min_makespan c;
     pso_max_makespan := pso_max_makespan c;
     ga_makespan := ga_makespan c;
     pso_avg_time := pso_avg_time c;
     pso_min_time := pso_min_time c;
     pso_max_time := pso_max_time c;
     ga_time := ga_time c;
     task_counts := task_counts c |}.

Definition push_pso (c : columns)
  (avg_m min_m max_m avg_t min_t max_t : float64) (tasks : Z) : columns :=
  {| config_names := config_names c;
     pso_avg_makespan := pso_avg_makespan c ++ [avg_m];
     pso_min_makespan := pso_min_makespan c ++ [min_m];
     pso_max_makespan := pso_max_makespan c ++ [max_m];
     ga_makespan := ga_makespan c;
     pso_avg_time := pso_avg_time c ++ [avg_t];
     pso_min_time := pso_min_time c ++ [min_t];
     pso_max_time := pso_max_time c ++ [max_t];
     ga_time := ga_time c;
     task_counts := task_counts c ++ [tasks] |}.

Definition push_ga (c : columns) (m t : float64) : columns :=
  {| config_names := config_names c;
     pso_avg_makespan := pso_avg_makespan c;
     pso_min_makespan := pso_min_makespan c;
     pso_max_makespan := pso_max_makespan c;
     ga_makespan := ga_makespan c ++ [m];
     pso_avg_time := pso_avg_time c;
     pso_min_time := pso_min_time c;
     pso_max_time := pso_max_time c;
     ga_time := ga_time c ++ [t];
     task_counts := task_counts c |}.

Fixpoint foldM {A B : Type} (f : B -> A -> result B) (l : list A) (b : B) : result B :=
  match l with
  | [] => Ok b
  | a :: l' => b' <- f b a ;; foldM f l' b'
  end.

(** The derived series of the third and fourth charts. *)
Record derived : Type := {
  unique_tasks : list Z;
  unique_pso : list float64;
  unique_ga : list float64;
  ratio : list float64
}.

Section Engine.

(** [np.mean] on a list of floats. *)
Variable np_mean : list float64 -> float64.

(** [num] and [name] of a configuration string, joined as the label. *)
Definition config_label (config_name : str) : result str :=
  num <- ordinal_token config_name ;;
  rest <- item1 (split_once colon config_name) ;;
  let name := firstn 20 (strip rest) in
  Ok (num ++ lit ": " ++ name).

(** The [if values['PSO']:] block. *)
Definition pso_block (values : group) (c : columns) : result columns :=
  match PSO values with
  | [] => Ok c
  | first :: _ =>
    let makespans := map Makespan (PSO values) in
    times <- mapM (fun e => time_to_seconds (ComputationTime e)) (PSO values) ;;
    min_m <- py_min makespans ;;
    max_m <- py_max makespans ;;
    min_t <- py_min times ;;
    max_t <- py_max times ;;
    Ok (push_pso c (np_mean makespans) min_m max_m
                   (np_mean times) min_t max_t (TaskCount first))
  end.

(** The [if values['GA']: ... else: ...] block. *)
Definition ga_block (values : group) (c : columns) : result columns :=
  match GA values with
  | Some g =>
    t <- time_to_seconds (ComputationTime g) ;;
    Ok (push_ga c (Makespan g) t)
  | None => Ok (push_ga c nan nan)
  end.

(** One iteration of the aggregation loop. *)
Definition aggregate_step (c : columns) (item : str * group) : result columns :=
  let '(config_name, values) := item in
  label <- config_label config_name ;;
  c1 <- pso_block values (push_name c label) ;;
  ga_block values c1.

(** Grouping, ordering and the aggregation loop. *)
Definition aggregate (experiments : list experiment) : result columns :=
  items <- sorted_configs (group_experiments experiments) ;;
  foldM aggregate_step items no_columns.

(** [unique_tasks], [unique_pso] and [unique_ga]. *)
Definition task_series (c : columns)
  : result (list Z * list float64 * list float64) :=
  let unique_tasks_idx := unique_index (task_counts c) in
  ut <- take (task_counts c) unique_tasks_idx ;;
  up <- take (pso_avg_makespan c) unique_tasks_idx ;;
  ug <- take (ga_makespan c) unique_tasks_idx ;;
  Ok (ut, up, ug).

(** [valid] and [ratio]. *)
Definition quality_ratio (c : columns) : result (list float64) :=
  let valid := map (fun x => negb (isnan x)) (ga_makespan c) in
  p <- select (pso_avg_makespan c) valid ;;
  g <- select (ga_makespan c) valid ;;
  Ok (map (fun pg => fdiv (fst pg) (snd pg)) (combine p g)).

Definition derive (c : columns) : result derived :=
  '(ut, up, ug) <- task_series c ;;
  r <- quality_ratio c ;;
  Ok {| unique_tasks := ut; unique_pso := up; unique_ga := ug; ratio := r |}.

(** The computations of the script in their order, without the chart
    calls that stand between them: a chart call that raises (a bar chart
    given heights that do not fit its positions) ends the script before
    the statements that follow it. *)
Definition analysis (experiments : list experiment) : result (columns * derived) :=
  c <- aggregate experiments ;;
  d <- derive c ;;
  Ok (c, d).

End Engine.

(** ** Vocabulary of the properties *)

(** A field made of one or more decimal digits. *)
Definition digits (s : str) : Prop :=
  s <> [] /\ Forall (fun c => is_digit c = true) s.

(** The texts [H:M:S] and [H:M:S.fff]. *)
Definition duration (H M S : str) (F : option str) : str :=
  H ++ colon :: M ++ colon :: S ++
  match F with
  | Some f => dot :: f
  | None => []
  end.

(** The float [0.<fff>], and [0.0] when there is no fractional part. *)
Definition fraction_value (F : option str) : float64 :=
  match F with
  | Some f => dec_to_float false (digits_value f) (- Z.of_nat (length f))
  | None => fzero
  end.

(** [hours*3600 + minutes*60 + seconds + 0.<milliseconds>] in binary64
    arithmetic. *)
Definition duration_seconds (H M S : str) (F : option str) : float64 :=
  fadd (fadd (of_dyadic (digits_value H * 3600 + digits_value M * 60) 0)
             (dec_to_float false (digits_value S) 0))
       (fraction_value F).

(** The characters that occur in a numeral accepted by [int()]. *)
Definition int_char (c : ascii) : bool :=
  is_digit c || is_num_space c || Ascii.eqb c underscore
  || Ascii.eqb c "-"%char || Ascii.eqb c "+"%char.

(** The characters of a decimal numeral with its exponent. *)
Definition dec_char (c : ascii) : bool :=
  is_digit c || Ascii.eqb c dot || Ascii.eqb c "e"%char || Ascii.eqb c "E"%char
  || Ascii.eqb c "-"%char || Ascii.eqb c "+"%char.

(** The characters that occur in a numeral accepted by [float()]. *)
Definition float_char (c : ascii) : bool :=
  int_char c || Ascii.eqb c dot
  || existsb (Ascii.eqb (lower c)) (lit "einfatyn").

(** The seconds and the fraction texts taken from the third field. *)
Definition seconds_text (s : str) : str := nth 0 (split_on dot s) [].
Definition fraction_text (s : str) : str := nth 1 (split_on dot s ++ [lit "0"]) [].

(** The malformed duration inputs: a value that is not a string, a string
    that does not split into three fields at its colons, or a string with
    a component that the numeric conversion applied to it rejects. *)
Inductive malformed : value -> Prop :=
| malformed_type (v : value) :
    (forall t, v <> VStr t) -> malformed v
| malformed_fields (t : str) :
    length (split_on colon t) <> 3%nat -> malformed (VStr t)
| malformed_component (t h m s : str) :
    split_on colon t = [h; m; s] ->
    (exists e, py_int h = Raise e) \/
    (exists e, py_int m = Raise e) \/
    (exists e, py_float (seconds_text s) = Raise e) \/
    (exists e, py_float (lit "0." ++ fraction_text s) = Raise e) ->
    malformed (VStr t).



(** The precondition of the configuration key: it contains a colon and
    the last blank-separated token before the first colon is accepted by
    [int()]. *)
Definition key_ok (config_name : str) : Prop :=
  In colon config_name /\ exists n, config_ordinal config_name = Ok n.

(** The groups that receive PSO statistics. *)
Definition has_pso (x : str * group) : bool :=
  match PSO (snd x) with
  | [] => false
  | _ :: _ => true
  end.

Definition rows (items : list (str * group)) : list (str * group) :=
  filter has_pso items.

Definition ordinals (items : list (str * group)) : result (list Z) :=
  mapM sort_key items.

(** The first record of [experiments] for [config] whose algorithm is
    the genetic one. *)
Definition genetic_for (config : str) (e : experiment) : bool :=
  str_eqb (Configuration e) config && str_eqb (AlgorithmType e) (lit "Genetic").

Definition first_genetic (config : str) (experiments : list experiment)
  : option experiment :=
  find (genetic_for config) experiments.

Definition ga_record (config : str) (configs : dict) : option experiment :=
  match get config configs with
  | Some g => GA g
  | None => None
  end.

(** The entry of [ga_makespan] written for a group. *)
Definition ga_value (x : str * group) : float64 :=
  match GA (snd x) with
  | Some g => Makespan g
  | None => nan
  end.

(** The quotients at the positions where the second list holds a number. *)
Definition quotients (pso ga : list float64) : list float64 :=
  map (fun pg => fdiv (fst pg) (snd pg))
      (filter (fun pg => negb (isnan (snd pg))) (combine pso ga)).

Definition no_derived : derived :=
  {| unique_tasks := []; unique_pso := []; unique_ga := []; ratio := [] |}.

(** The task count written for a group with PSO trials. *)
Definition first_tasks (x : str * group) : Z :=
  match PSO (snd x) with
  | first :: _ => TaskCount first
  | [] => 0
  end.

(** The position of the first occurrence of [v] in [a]. *)
Fixpoint first_pos (v : Z) (a : list Z) : nat :=
  match a with
  | [] => 0
  | x :: a' => if x =? v then 0 else S (first_pos v a')
  end.

(** Orders used to describe the stable sort. *)
Definition key_le {A : Type} (p q : Z * A) : Prop := fst p <= fst q.

Definition lex (p q : Z * nat) : Prop :=
  fst p < fst q \/ (fst p = fst q /\ (snd p < snd q)%nat).

Section LoopInvariant.

Variable np_mean : list float64 -> float64.

(** The entry of [pso_avg_makespan] written for a group. *)
Definition pso_mean (x : str * group) : float64 :=
  np_mean (map Makespan (PSO (snd x))).

(** What the aggregation loop appends to the columns for [items]. *)
Definition extends_all (c c' : columns) (items : list (str * group)) : Prop :=
  length (config_names c') = (length (config_names c) + length items)%nat /\
  ga_makespan c' = ga_makespan c ++ map ga_value items /\
  length (ga_time c') = (length (ga_time c) + length items)%nat /\
  pso_avg_makespan c' = pso_avg_makespan c ++ map pso_mean (rows items) /\
  task_counts c' = task_counts c ++ map first_tasks (rows items) /\
  length (pso_min_makespan c') = (length (pso_min_makespan c) + length (rows items))%nat /\
  length (pso_max_makespan c') = (length (pso_max_makespan c) + length (rows items))%nat /\
  length (pso_avg_time c') = (length (pso_avg_time c) + length (rows items))%nat /\
  length (pso_min_time c') = (length (pso_min_time c) + length (rows items))%nat /\
  length (pso_max_time c') = (length (pso_max_time c) + length (rows items))%nat.

End LoopInvariant.

(** ** Sample inputs *)

Definition record (config algorithm : string) (makespan : Z) (time : string)
  (tasks : Z) : experiment :=
  {| Configuration := lit config; AlgorithmType := lit algorithm;
     Makespan := of_dyadic makespan 0; ComputationTime := VStr (lit time);
     TaskCount := tasks |}.

(** A configuration with a GA record and no PSO trial. *)
Definition ga_only : list experiment :=
  [record "1: A" "Genetic" 50 "0:00:08" 5].

(** The same, followed by a configuration with both algorithms. *)
Definition ga_only_then_both : list experiment :=
  [record "1: A" "Genetic" 50 "0:00:08" 5;
   record "2: B" "Pso" 100 "0:00:10" 5;
   record "2: B" "Genetic" 80 "0:00:09" 5].

(** The same, followed by a configuration with PSO trials only. *)
Definition ga_only_then_pso : list experiment :=
  [record "1: A" "Genetic" 50 "0:00:08" 5;
   record "2: B" "Pso" 100 "0:00:10" 5].

(** Two configurations that share the ordinal 1. *)
Definition shared_ordinal : list experiment :=
  [record "1: A" "Pso" 100 "0:00:10" 5;
   record "1: B" "Pso" 120 "0:00:12" 7].

(** Two GA records of one configuration with different makespans. *)
Definition two_ga : list experiment :=
  [record "1: Small" "Pso" 100 "0:00:10" 5;
   record "1: Small" "Genetic" 90 "0:00:08" 5;
   record "1: Small" "Genetic" 70 "0:00:07" 5].

(** An hour field of 310 digits. *)
Definition huge_hours : str := lit "1" ++ repeat "0"%char 309.

(** An hour field of 4301 digits whose value is 1. *)
Definition long_hours : str := repeat "0"%char 4300 ++ lit "1".

(** Two PSO trials and one GA run of one configuration. *)
Definition small : list experiment :=
  [record "1: Small" "Pso" 100 "0:00:10" 5;
   record "1: Small" "Pso" 120 "0:00:12" 5;
   record "1: Small" "Genetic" 90 "0:00:08" 5].

(** Two configurations given in descending order of their ordinals. *)
Definition descending : list experiment :=
  [record "Exp 10: A" "Pso" 50 "0:00:08" 7;
   record "Exp 2: B" "Pso" 100 "0:00:10" 5].

(** A configuration string with an ordinal and without a colon. *)
Definition no_colon : list experiment :=
  [record "7" "Pso" 100 "0:00:10" 5].

(** ** Vocabulary of the further properties *)

(** The PSO records of [config]. *)
Definition pso_for (config : str) (e : experiment) : bool :=
  str_eqb (Configuration e) config && str_eqb (AlgorithmType e) (lit "Pso").

Definition pso_trials (config : str) (configs : dict) : list experiment :=
  match get config configs with
  | Some g => PSO g
  | None => []
  end.

(** The distinct texts of a list, in the order of their first occurrence. *)
Fixpoint first_seen (l : list str) : list str :=
  match l with
  | [] => []
  | x :: l' => x :: filter (fun y => negb (str_eqb y x)) (first_seen l')
  end.

Definition absent_from (seen : list str) (y : str) : bool :=
  negb (existsb (str_eqb y) seen).

(** The groups whose ordinal is [k]. *)
Definition has_ordinal (k : Z) (x : str * group) : bool :=
  match sort_key x with
  | Ok n => n =? k
  | Raise _ => false
  end.

(** The float of a computation that did not raise. *)
Definition value_of (r : result float64) : float64 :=
  match r with
  | Ok x => x
  | Raise _ => nan
  end.

Definition seconds (t : value) : float64 := value_of (time_to_seconds t).

Definition label_of (x : str * group) : str :=
  match config_label (fst x) with
  | Ok label => label
  | Raise _ => []
  end.

Definition trial_makespans (x : str * group) : list float64 :=
  map Makespan (PSO (snd x)).

Definition trial_times (x : str * group) : list float64 :=
  map (fun e => seconds (ComputationTime e)) (PSO (snd x)).

Definition ga_seconds (x : str * group) : float64 :=
  match GA (snd x) with
  | Some g => seconds (ComputationTime g)
  | None => nan
  end.

(** The columns as maps over the ordered groups. *)
Definition columns_of (np_mean : list float64 -> float64)
  (items : list (str * group)) : columns :=
  {| config_names := map label_of items;
     pso_avg_makespan := map (fun x => np_mean (trial_makespans x)) (rows items);
     pso_min_makespan := map (fun x => value_of (py_min (trial_makespans x))) (rows items);
     pso_max_makespan := map (fun x => value_of (py_max (trial_makespans x))) (rows items);
     ga_makespan := map ga_value items;
     pso_avg_time := map (fun x => np_mean (trial_times x)) (rows items);
     pso_min_time := map (fun x => value_of (py_min (trial_times x))) (rows items);
     pso_max_time := map (fun x => value_of (py_max (trial_times x))) (rows items);
     ga_time := map ga_seconds items;
     task_counts := map first_tasks (rows items) |}.

Definition append_columns (a b : columns) : columns :=
  {| config_names := config_names a ++ config_names b;
     pso_avg_makespan := pso_avg_makespan a ++ pso_avg_makespan b;
     pso_min_makespan := pso_min_makespan a ++ pso_min_makespan b;
     pso_max_makespan := pso_max_makespan a ++ pso_max_makespan b;
     ga_makespan := ga_makespan a ++ ga_makespan b;
     pso_avg_time := pso_avg_time a ++ pso_avg_time b;
     pso_min_time := pso_min_time a ++ pso_min_time b;
     pso_max_time := pso_max_time a ++ pso_max_time b;
     ga_time := ga_time a ++ ga_time b;
     task_counts := task_counts a ++ task_counts b |}.

(** A key that orders the floats other than [nan] as [<] does. *)
Definition float_rank (x : float64) : Z * Z * Z :=
  match x with
  | S754_zero _ => (0, 0, 0)
  | S754_infinity s => (if s then -2 else 2, 0, 0)
  | S754_nan => (0, 0, 0)
  | S754_finite s m e => if s then (-1, - e, Zneg m) else (1, e, Zpos m)
  end.

Definition rank_lt (a b : Z * Z * Z) : Prop :=
  let '(a1, a2, a3) := a in
  let '(b1, b2, b3) := b in
  a1 < b1 \/ (a1 = b1 /\ (a2 < b2 \/ (a2 = b2 /\ a3 < b3))).

(** [m] is one of [l] and no element of [l] is below it. *)
Definition is_least (l : list float64) (m : float64) : Prop :=
  In m l /\ forall y, In y l -> flt y m = false.

(** [m] is one of [l] and no element of [l] is above it. *)
Definition is_greatest (l : list float64) (m : float64) : Prop :=
  In m l /\ forall y, In y l -> flt m y = false.

(** The counts that [np.unique] keeps as 64-bit integers when it turns
    the list into an array; there it compares them exactly, as
    [unique_index] does.  A list with a count outside this range becomes
    an array of another type. *)
Definition int64 (n : Z) : bool := (- 2 ^ 63 <=? n) && (n <? 2 ^ 63).

(** [np.where(mask)[0]]: the positions that hold [True]. *)
Fixpoint where_from (i : nat) (mask : list bool) : list nat :=
  match mask with
  | [] => []
  | b :: mask' => (if b then [i] else []) ++ where_from (S i) mask'
  end.

Definition np_where (mask : list bool) : list nat := where_from 0 mask.

(** [str(n)] for a natural number. *)
Definition py_str (n : nat) : str := lit (DecimalString.NilZero.string_of_uint (Nat.to_uint n)).

(** The tick labels of the ratio chart:
    [[str(i+1) for i in np.where(valid)[0]]]. *)
Definition ratio_ticks (c : columns) : list str :=
  let valid := map (fun x => negb (isnan x)) (ga_makespan c) in
  map (fun i => py_str (i + 1)) (np_where valid).

(** The positions of [ga] that hold a number. *)
Definition number_positions (ga : list float64) : list nat :=
  filter (fun i => negb (isnan (nth i ga nan))) (seq 0 (length ga)).

(** The first PSO record of [config] in the input. *)
Definition first_pso (config : str) (experiments : list experiment)
  : option experiment :=
  find (pso_for config) experiments.

(** ** Further sample inputs *)

(** Three configurations, the first and the last with the ordinal 2, the
    last one with a GA record only. *)
Definition mixed : list experiment :=
  [record "Run 2: B" "Pso" 100 "0:00:10" 5;
   record "Run 1: A" "Pso" 80 "0:00:09" 7;
   record "Run 2: B" "Pso" 120 "0:00:12" 6;
   record "Run 1: A" "Genetic" 90 "0:00:08" 7;
   record "Set 2: C" "Genetic" 70 "0:00:07" 9].

(** The same without the last configuration. *)
Definition paired : list experiment :=
  [record "Run 2: B" "Pso" 100 "0:00:10" 5;
   record "Run 1: A" "Pso" 80 "0:00:09" 7;
   record "Run 2: B" "Pso" 120 "0:00:12" 6;
   record "Run 1: A" "Genetic" 90 "0:00:08" 7].

(** Columns of two configurations, the first without GA value. *)
Definition two_columns : columns :=
  {| config_names := [lit "1: A"; lit "2: B"];
     pso_avg_makespan := [of_dyadic 100 0; of_dyadic 60 0];
     pso_min_makespan := [of_dyadic 100 0; of_dyadic 60 0];
     pso_max_makespan := [of_dyadic 100 0; of_dyadic 60 0];
     ga_makespan := [nan; of_dyadic 30 0];
     pso_avg_time := [of_dyadic 1 0; of_dyadic 1 0];
     pso_min_time := [of_dyadic 1 0; of_dyadic 1 0];
     pso_max_time := [of_dyadic 1 0; of_dyadic 1 0];
     ga_time := [nan; of_dyadic 1 0];
     task_counts := [5; 7] |}.

(** * Facts on the monad and on strings *)

Lemma bind_ok {A B : Type} (c : result A) (k : A -> result B) (b : B) :
  bind c k = Ok b <-> exists a, c = Ok a /\ k a = Ok b.
Proof.
  destruct c as [a|e]; simpl; split.
  - intros H. exists a. auto.
  - intros [a' [Ha Hk]]. inversion Ha. subst. exact Hk.
  - discriminate.
  - intros [a' [Ha _]]. discriminate.
Qed.

(** [unbind H as x Hx] splits a successful [bind] in [H] into its first
    computation, kept as [Hx], and the rest, left in [H]. *)
Tactic Notation "unbind" hyp(H) "as" simple_intropattern(x) simple_intropattern(Hx) :=
  apply bind_ok in H; destruct H as [x [Hx H]].

Lemma str_eqb_spec (a b : str) : reflect (a = b) (str_eqb a b).
Proof.
  unfold str_eqb. destruct (list_eq_dec ascii_dec a b); now constructor.
Qed.

Lemma str_eqb_refl (a : str) : str_eqb a a = true.
Proof. now destruct (str_eqb_spec a a). Qed.

Lemma split_on_nonempty (sep : ascii) (s : str) : split_on sep s <> [].
Proof.
  destruct s as [|c s]; simpl; [discriminate|].
  destruct (Ascii.eqb c sep); [discriminate|].
  destruct (split_on sep s); discriminate.
Qed.

Lemma split_on_absent (sep : ascii) (s : str) :
  ~ In sep s -> split_on sep s = [s].
Proof.
  induction s as [|c s IH]; simpl; intros Hn; [reflexivity|].
  destruct (Ascii.eqb_spec c sep) as [->|Hc].
  - exfalso. apply Hn. now left.
  - rewrite IH; [reflexivity|]. intros Hin. apply Hn. now right.
Qed.

Lemma split_on_app (sep : ascii) (a b : str) :
  ~ In sep a -> split_on sep (a ++ sep :: b) = a :: split_on sep b.
Proof.
  induction a as [|c a IH]; simpl; intros Hn.
  - now rewrite Ascii.eqb_refl.
  - destruct (Ascii.eqb_spec c sep) as [->|Hc].
    + exfalso. apply Hn. now left.
    + rewrite IH; [reflexivity|]. intros Hin. apply Hn. now right.
Qed.

Lemma drop_while_head (p : ascii -> bool) (s : str) :
  match s with [] => True | c :: _ => p c = false end -> drop_while p s = s.
Proof. destruct s as [|c s]; simpl; [reflexivity|]. now intros ->. Qed.

Lemma strip_with_clean (p : ascii -> bool) (s : str) :
  Forall (fun c => p c = false) s -> strip_with p s = s.
Proof.
  intros H. unfold strip_with.
  rewrite (drop_while_head p s).
  - rewrite drop_while_head; [apply rev_involutive|].
    apply Forall_rev in H. destruct (rev s); [exact I|]. now inversion H.
  - destruct s; [exact I|]. now inversion H.
Qed.

Lemma take_while_all (p : ascii -> bool) (s r : str) :
  Forall (fun c => p c = true) s ->
  match r with [] => True | c :: _ => p c = false end ->
  take_while p (s ++ r) = s /\ drop_while p (s ++ r) = r.
Proof.
  intros Hs Hr. induction Hs as [|c s Hc Hs IH]; simpl.
  - destruct r as [|c r]; simpl; [auto|]. now rewrite Hr.
  - rewrite Hc. destruct IH as [-> ->]. auto.
Qed.

(** * Facts on digits *)

Lemma digit_not_special (c : ascii) :
  is_digit c = true ->
  is_num_space c = false /\ c <> colon /\ c <> dot /\ c <> underscore /\
  c <> "-"%char /\ c <> "+"%char.
Proof.
  destruct c as [[|] [|] [|] [|] [|] [|] [|] [|]]; vm_compute; intros H;
    try discriminate H; repeat split; discriminate.
Qed.

Lemma digits_no_char (s : str) (c : ascii) :
  Forall (fun d => is_digit d = true) s -> is_digit c = false -> ~ In c s.
Proof.
  intros Hs Hc Hin. rewrite Forall_forall in Hs. apply Hs in Hin. congruence.
Qed.

Lemma digits_clean (s : str) :
  Forall (fun d => is_digit d = true) s ->
  Forall (fun d => is_num_space d = false) s.
Proof.
  intros H. eapply Forall_impl; [|exact H]. intros c Hc.
  now apply digit_not_special in Hc.
Qed.

Lemma take_sign_digit (c : ascii) (s : str) :
  is_digit c = true -> take_sign (c :: s) = (false, c :: s).
Proof.
  intros H. apply digit_not_special in H.
  destruct H as (_ & _ & _ & _ & Hm & Hp). simpl.
  destruct (Ascii.eqb_spec c "-"%char); [contradiction|].
  destruct (Ascii.eqb_spec c "+"%char); [contradiction|]. reflexivity.
Qed.

Lemma digit_part_digits (s : str) : digits s -> digit_part s = Some s.
Proof.
  intros [Hne Hs]. induction Hs as [|c s Hc Hs IH]; [contradiction|].
  simpl. rewrite Hc. destruct s as [|d s]; [reflexivity|].
  assert (Hd : is_digit d = true) by now inversion Hs.
  apply digit_not_special in Hd. destruct Hd as (_ & _ & _ & Hu & _).
  destruct (Ascii.eqb_spec d underscore); [contradiction|].
  rewrite IH; [reflexivity|discriminate].
Qed.

Lemma py_int_digits (s : str) :
  digits s -> Z.of_nat (length s) <= int_max_str_digits ->
  py_int s = Ok (digits_value s).
Proof.
  intros Hd Hlen. unfold py_int.
  rewrite strip_with_clean by (apply digits_clean, Hd).
  destruct Hd as [Hne Hs]. destruct s as [|c s]; [contradiction|].
  rewrite take_sign_digit by now inversion Hs.
  rewrite digit_part_digits by (split; [discriminate|exact Hs]).
  destruct (Z.ltb_spec int_max_str_digits (Z.of_nat (length (c :: s)))); [lia|].
  reflexivity.
Qed.

Lemma underscores_ok_digits (s : str) (prev : ascii) :
  prev <> underscore -> Forall (fun d => is_digit d = true) s ->
  underscores_ok_from prev s = true.
Proof.
  intros Hp Hs. revert prev Hp. induction Hs as [|c s Hc Hs IH]; intros prev Hp; simpl.
  - destruct (Ascii.eqb_spec prev underscore); [contradiction|reflexivity].
  - pose proof (digit_not_special c Hc) as (_ & _ & _ & Hu & _).
    destruct (Ascii.eqb_spec c underscore); [contradiction|].
    rewrite Hc, orb_true_r. simpl. now apply IH.
Qed.

Lemma filter_no_underscore (s : str) :
  ~ In underscore s ->
  filter (fun c => negb (Ascii.eqb c underscore)) s = s.
Proof.
  induction s as [|c s IH]; simpl; intros Hn; [reflexivity|].
  destruct (Ascii.eqb_spec c underscore) as [->|Hc].
  - exfalso. apply Hn. now left.
  - simpl. rewrite IH; [reflexivity|]. intros Hin. apply Hn. now right.
Qed.

Lemma py_float_digits (s : str) :
  digits s -> py_float s = Ok (dec_to_float false (digits_value s) 0).
Proof.
  intros Hd. unfold py_float.
  rewrite strip_with_clean by (apply digits_clean, Hd).
  destruct Hd as [Hne Hs].
  unfold underscores_ok. rewrite underscores_ok_digits; [|discriminate|exact Hs].
  rewrite filter_no_underscore by (apply digits_no_char with (1 := Hs); reflexivity).
  destruct s as [|c s]; [contradiction|].
  rewrite take_sign_digit by now inversion Hs.
  unfold parse_decimal.
  destruct (take_while_all is_digit (c :: s) [] Hs I) as [Ht Hdr].
  rewrite app_nil_r in Ht, Hdr. rewrite Ht, Hdr. rewrite app_nil_r.
  reflexivity.
Qed.

Lemma py_float_fraction (f : str) :
  Forall (fun d => is_digit d = true) f ->
  py_float (lit "0." ++ f)
  = Ok (dec_to_float false (digits_value f) (- Z.of_nat (length f))).
Proof.
  intros Hs. unfold py_float.
  assert (Hclean : Forall (fun c => is_num_space c = false) (lit "0." ++ f)).
  { repeat constructor. now apply digits_clean. }
  rewrite strip_with_clean by exact Hclean.
  assert (Hu : underscores_ok (lit "0." ++ f) = true).
  { unfold underscores_ok. simpl. apply underscores_ok_digits; [discriminate|exact Hs]. }
  rewrite Hu.
  rewrite filter_no_underscore.
  2:{ simpl. intros [H|[H|H]]; try discriminate H.
      revert H. apply digits_no_char with (1 := Hs). reflexivity. }
  change (lit "0." ++ f) with ("0"%char :: dot :: f).
  rewrite take_sign_digit by reflexivity.
  unfold parse_decimal.
  destruct (take_while_all is_digit ["0"%char] (dot :: f)) as [Ht Hdr];
    [repeat constructor|reflexivity|].
  simpl app in Ht, Hdr. rewrite Ht, Hdr.
  rewrite Ascii.eqb_refl.
  destruct (take_while_all is_digit f [] Hs I) as [Ht' Hdr'].
  rewrite app_nil_r in Ht', Hdr'. rewrite Ht', Hdr'.
  reflexivity.
Qed.

(** * Characters foreign to numerals *)

Lemma drop_while_keeps (p : ascii -> bool) (s : str) (c : ascii) :
  In c s -> p c = false -> In c (drop_while p s).
Proof.
  intros Hin Hc. induction s as [|a s IH]; simpl; [contradiction|].
  destruct (p a) eqn:Ha; [|exact Hin].
  destruct Hin as [->|Hin]; [congruence|now apply IH].
Qed.

Lemma strip_with_keeps (p : ascii -> bool) (s : str) (c : ascii) :
  In c s -> p c = false -> In c (strip_with p s).
Proof.
  intros Hin Hc. unfold strip_with. apply in_rev.
  rewrite rev_involutive. apply drop_while_keeps; [|exact Hc].
  apply -> in_rev. now apply drop_while_keeps.
Qed.

Lemma take_sign_keeps (s : str) (c : ascii) :
  In c s -> c <> "-"%char -> c <> "+"%char -> In c (snd (take_sign s)).
Proof.
  intros Hin Hm Hp. destruct s as [|a s]; [contradiction|]. simpl.
  destruct (Ascii.eqb_spec a "-"%char) as [->|_];
    [destruct Hin as [E|Hin]; [congruence|exact Hin]|].
  destruct (Ascii.eqb_spec a "+"%char) as [->|_];
    [destruct Hin as [E|Hin]; [congruence|exact Hin]|].
  exact Hin.
Qed.

Lemma digit_part_alphabet (n : nat) (s ds : str) :
  (length s <= n)%nat -> digit_part s = Some ds ->
  Forall (fun c => is_digit c = true \/ c = underscore) s.
Proof.
  revert s ds. induction n as [|n IH]; intros s ds Hn H.
  - destruct s; [discriminate H|simpl in Hn; lia].
  - destruct s as [|c s]; [discriminate H|]. simpl in H, Hn.
    destruct (is_digit c) eqn:Hc; [|discriminate H].
    constructor; [now left|].
    destruct s as [|d s]; [constructor|].
    destruct (Ascii.eqb_spec d underscore) as [->|Hd].
    + constructor; [now right|].
      destruct (digit_part s) as [ds'|] eqn:Hs; [|discriminate H].
      apply (IH s ds'); [simpl in Hn; lia|exact Hs].
    + destruct (digit_part (d :: s)) as [ds'|] eqn:Hs; [|discriminate H].
      apply (IH (d :: s) ds'); [lia|exact Hs].
Qed.

(** A text with a character foreign to integer numerals is rejected. *)
Lemma py_int_foreign (s : str) (c : ascii) :
  In c s -> int_char c = false -> py_int s = Raise ValueError.
Proof.
  intros Hin Hc. unfold int_char in Hc.
  repeat (apply orb_false_iff in Hc; destruct Hc as [Hc ?]).
  unfold py_int.
  pose proof (strip_with_keeps is_num_space s c Hin) as Hstrip.
  specialize (Hstrip ltac:(assumption)).
  apply take_sign_keeps in Hstrip;
    [|intros ->; discriminate|intros ->; discriminate].
  destruct (take_sign (strip_with is_num_space s)) as [neg body]. simpl in Hstrip.
  destruct (digit_part body) as [ds|] eqn:Hd; [|reflexivity].
  exfalso. apply (digit_part_alphabet (length body)) in Hd; [|lia].
  rewrite Forall_forall in Hd. destruct (Hd c Hstrip) as [E| ->]; [congruence|].
  discriminate.
Qed.

Lemma take_drop (p : ascii -> bool) (s : str) :
  take_while p s ++ drop_while p s = s.
Proof.
  induction s as [|c s IH]; simpl; [reflexivity|].
  destruct (p c); simpl; [now rewrite IH|reflexivity].
Qed.

Lemma take_while_forall (p : ascii -> bool) (s : str) :
  Forall (fun c => p c = true) (take_while p s).
Proof.
  induction s as [|c s IH]; simpl; [constructor|].
  destruct (p c) eqn:Hc; [now constructor|constructor].
Qed.

Lemma digits_dec (s : str) :
  Forall (fun c => is_digit c = true) s -> Forall (fun c => dec_char c = true) s.
Proof.
  apply Forall_impl. intros c Hc. unfold dec_char. now rewrite Hc.
Qed.

Lemma exponent_alphabet (r : str) (eneg : bool) (ed : str) :
  take_sign r = (eneg, ed) -> forallb is_digit ed = true ->
  Forall (fun c => dec_char c = true) r.
Proof.
  intros Hs Hd. rewrite forallb_forall in Hd.
  assert (Hed : Forall (fun c => dec_char c = true) ed).
  { apply digits_dec, Forall_forall. exact Hd. }
  destruct r as [|a r]; [constructor|]. simpl in Hs.
  destruct (Ascii.eqb_spec a "-"%char) as [->|_];
    [inversion Hs; subst; constructor; [reflexivity|exact Hed]|].
  destruct (Ascii.eqb_spec a "+"%char) as [->|_];
    [inversion Hs; subst; constructor; [reflexivity|exact Hed]|].
  inversion Hs; subst. exact Hed.
Qed.

Lemma tail_alphabet (ds : str) (fp r2 : str) (x : Z * Z) :
  (match r2 with
   | [] => Some (digits_value ds, - Z.of_nat (length fp))
   | c :: r3 =>
     if Ascii.eqb c "e"%char || Ascii.eqb c "E"%char then
       let '(eneg, ed) := take_sign r3 in
       match ed with
       | [] => None
       | _ =>
         if forallb is_digit ed
         then Some (digits_value ds,
                    cond_Zopp eneg (digits_value ed) - Z.of_nat (length fp))
         else None
       end
     else None
   end) = Some x ->
  Forall (fun c => dec_char c = true) r2.
Proof.
  destruct r2 as [|c r3]; [constructor|]. intros H.
  destruct (Ascii.eqb c "e"%char || Ascii.eqb c "E"%char) eqn:Hc; [|discriminate H].
  constructor.
  - unfold dec_char. apply orb_true_iff in Hc.
    destruct Hc as [-> | ->]; now rewrite ?orb_true_r.
  - destruct (take_sign r3) as [eneg ed] eqn:Hs.
    destruct ed as [|e0 ed]; [discriminate H|].
    destruct (forallb is_digit (e0 :: ed)) eqn:Hd; [|discriminate H].
    exact (exponent_alphabet _ _ _ Hs Hd).
Qed.

Lemma parse_decimal_alphabet (body : str) (x : Z * Z) :
  parse_decimal body = Some x -> Forall (fun c => dec_char c = true) body.
Proof.
  unfold parse_decimal. intros H.
  rewrite <- (take_drop is_digit body). apply Forall_app.
  split; [apply digits_dec, take_while_forall|].
  destruct (drop_while is_digit body) as [|c r] eqn:Hr1; [constructor|].
  destruct (Ascii.eqb_spec c dot) as [->|Hc].
  - constructor; [reflexivity|].
    rewrite <- (take_drop is_digit r). apply Forall_app.
    split; [apply digits_dec, take_while_forall|].
    destruct (take_while is_digit body ++ take_while is_digit r); [discriminate H|].
    eapply tail_alphabet, H.
  - destruct (take_while is_digit body ++ []); [discriminate H|].
    eapply tail_alphabet, H.
Qed.

Lemma lower_letters (c : ascii) (w : str) :
  In (lower c) w ->
  forallb (fun d => existsb (Ascii.eqb d) (lit "einfatyn")) w = true ->
  float_char c = true.
Proof.
  intros Hin Hw. rewrite forallb_forall in Hw. apply Hw in Hin.
  unfold float_char. rewrite Hin. apply orb_true_r.
Qed.

Lemma parse_inf_or_nan_alphabet (neg : bool) (body : str) (x : float64) (c : ascii) :
  parse_inf_or_nan neg body = Some x -> In c body -> float_char c = true.
Proof.
  unfold parse_inf_or_nan. intros H Hin.
  apply (in_map lower) in Hin.
  destruct (str_eqb_spec (map lower body) (lit "inf")) as [E|_].
  { rewrite E in Hin. now apply (lower_letters c (lit "inf")). }
  destruct (str_eqb_spec (map lower body) (lit "infinity")) as [E|_].
  { rewrite E in Hin. now apply (lower_letters c (lit "infinity")). }
  destruct (str_eqb_spec (map lower body) (lit "nan")) as [E|_]; [|discriminate H].
  rewrite E in Hin. now apply (lower_letters c (lit "nan")).
Qed.

Lemma dec_char_float (c : ascii) : dec_char c = true -> float_char c = true.
Proof.
  destruct c as [[|] [|] [|] [|] [|] [|] [|] [|]]; vm_compute; congruence.
Qed.

(** A text with a character foreign to float numerals is rejected. *)
Lemma py_float_foreign (s : str) (c : ascii) :
  In c s -> float_char c = false -> py_float s = Raise ValueError.
Proof.
  intros Hin Hc. unfold py_float.
  assert (Hparts : is_num_space c = false /\ c <> underscore /\
                   c <> "-"%char /\ c <> "+"%char).
  { revert Hc. destruct c as [[|] [|] [|] [|] [|] [|] [|] [|]]; vm_compute;
      intros Hc; try discriminate Hc; repeat split; discriminate. }
  destruct Hparts as (Hsp & Hu & Hm & Hp).
  pose proof (strip_with_keeps is_num_space s c Hin Hsp) as Hstrip.
  destruct (underscores_ok (strip_with is_num_space s)); [|reflexivity].
  assert (Hf : In c (filter (fun d => negb (Ascii.eqb d underscore))
                            (strip_with is_num_space s))).
  { apply filter_In. split; [exact Hstrip|].
    destruct (Ascii.eqb_spec c underscore); [contradiction|reflexivity]. }
  apply take_sign_keeps in Hf; [|exact Hm|exact Hp].
  destruct (take_sign _) as [neg body]. simpl in Hf.
  destruct (parse_decimal body) as [[m e]|] eqn:Hd.
  - exfalso. apply parse_decimal_alphabet in Hd.
    rewrite Forall_forall in Hd. apply Hd, dec_char_float in Hf. congruence.
  - destruct (parse_inf_or_nan neg body) as [x|] eqn:Hn; [|reflexivity].
    exfalso. apply (parse_inf_or_nan_alphabet _ _ _ c Hn) in Hf. congruence.
Qed.

(** A duration with a character foreign to numerals in one of its four
    components is malformed. *)
Lemma foreign_char_malformed (t h m s : str) (c : ascii) :
  split_on colon t = [h; m; s] ->
  (In c h /\ int_char c = false) \/
  (In c m /\ int_char c = false) \/
  (In c (seconds_text s) /\ float_char c = false) \/
  (In c (fraction_text s) /\ float_char c = false) ->
  malformed (VStr t).
Proof.
  intros Hs Hc. apply (malformed_component t h m s Hs).
  destruct Hc as [[Hin Hc]|[[Hin Hc]|[[Hin Hc]|[Hin Hc]]]].
  - left. exists ValueError. now apply (py_int_foreign h c).
  - right; left. exists ValueError. now apply (py_int_foreign m c).
  - right; right; left. exists ValueError. now apply (py_float_foreign _ c).
  - right; right; right. exists ValueError.
    apply (py_float_foreign _ c); [|exact Hc]. apply in_or_app. now right.
Qed.

(** * The duration parser *)

Lemma time_to_seconds_total (v : value) : exists x, time_to_seconds v = Ok x.
Proof.
  destruct v; simpl; try (now eexists).
  destruct (time_to_seconds_try s); simpl; now eexists.
Qed.

Lemma firstn_2_split (s : str) :
  firstn 2 (split_on dot s ++ [lit "0"]) = [seconds_text s; fraction_text s].
Proof.
  unfold seconds_text, fraction_text.
  pose proof (split_on_nonempty dot s) as Hne.
  destruct (split_on dot s) as [|a [|b l]]; [contradiction| |]; reflexivity.
Qed.

Lemma time_to_seconds_try_fields (t h m s : str) :
  split_on colon t = [h; m; s] ->
  time_to_seconds_try t =
  (hv <- py_int h ;;
   mv <- py_int m ;;
   sv <- py_float (seconds_text s) ;;
   iv <- float_of_int (hv * 3600 + mv * 60) ;;
   msv <- py_float (lit "0." ++ fraction_text s) ;;
   Ok (fadd (fadd iv sv) msv)).
Proof.
  intros H. unfold time_to_seconds_try. rewrite H, firstn_2_split. reflexivity.
Qed.

Lemma split_duration (H M S : str) (F : option str) :
  digits H -> digits M -> digits S -> (forall f, F = Some f -> digits f) ->
  split_on colon (duration H M S F)
  = [H; M; S ++ match F with Some f => dot :: f | None => [] end].
Proof.
  intros [_ HH] [_ HM] [_ HS] HF. unfold duration.
  rewrite split_on_app by (apply digits_no_char with (1 := HH); reflexivity).
  rewrite split_on_app by (apply digits_no_char with (1 := HM); reflexivity).
  rewrite split_on_absent; [reflexivity|].
  intros Hin. apply in_app_or in Hin. destruct Hin as [Hin|Hin].
  - revert Hin. apply digits_no_char with (1 := HS). reflexivity.
  - destruct F as [f|]; [|contradiction].
    destruct Hin as [Hin|Hin]; [discriminate Hin|].
    destruct (HF f eq_refl) as [_ Hf].
    revert Hin. apply digits_no_char with (1 := Hf). reflexivity.
Qed.

Lemma third_field_texts (S : str) (F : option str) :
  digits S -> (forall f, F = Some f -> digits f) ->
  let s := S ++ match F with Some f => dot :: f | None => [] end in
  seconds_text s = S /\
  fraction_text s = match F with Some f => f | None => lit "0" end.
Proof.
  intros [_ HS] HF s. subst s. unfold seconds_text, fraction_text.
  assert (HSd : ~ In dot S) by (apply digits_no_char with (1 := HS); reflexivity).
  destruct F as [f|].
  - destruct (HF f eq_refl) as [_ Hf].
    rewrite split_on_app by exact HSd.
    rewrite split_on_absent
      by (apply digits_no_char with (1 := Hf); reflexivity).
    split; reflexivity.
  - rewrite app_nil_r, split_on_absent by exact HSd. split; reflexivity.
Qed.

(** C2 (amended). A well-formed duration [H:M:S] or [H:M:S.fff], every
    field made of one or more digits, whose hour and minute fields have
    at most [int_max_str_digits] digits and whose integer part
    [hours*3600 + minutes*60] converts to a finite binary64, is parsed to
    [hours*3600 + minutes*60 + seconds + 0.fff], the sums being taken in
    binary64 arithmetic. *)
Theorem duration_parsed (H M S : str) (F : option str) :
  digits H -> digits M -> digits S -> (forall f, F = Some f -> digits f) ->
  Z.of_nat (length H) <= int_max_str_digits ->
  Z.of_nat (length M) <= int_max_str_digits ->
  is_inf (of_dyadic (digits_value H * 3600 + digits_value M * 60) 0) = false ->
  time_to_seconds (VStr (duration H M S F)) = Ok (duration_seconds H M S F).
Proof.
  intros HH HM HS HF LH LM Hfin. simpl.
  rewrite (time_to_seconds_try_fields _ _ _ _ (split_duration H M S F HH HM HS HF)).
  destruct (third_field_texts S F HS HF) as [-> ->].
  rewrite (py_int_digits H HH LH), (py_int_digits M HM LM). cbn [bind].
  rewrite (py_float_digits S HS). cbn [bind].
  unfold float_of_int. rewrite Hfin. cbn [bind].
  unfold duration_seconds, fraction_value.
  destruct F as [f|].
  - destruct (HF f eq_refl) as [_ Hf]. rewrite (py_float_fraction f Hf). reflexivity.
  - reflexivity.
Qed.


(** C10. The parsed duration is not always non-negative: the text
    ["-1:00:00"] is parsed to [-3600.0], which is below zero. *)
Theorem negative_duration :
  time_to_seconds (VStr (lit "-1:00:00")) = Ok (of_dyadic (-3600) 0) /\
  flt (of_dyadic (-3600) 0) fzero = true.
Proof. split; vm_compute; reflexivity. Qed.

(** * The dictionary of groups *)

Lemma get_none (k : str) (d : dict) : get k d = None <-> ~ In k (map fst d).
Proof.
  induction d as [|[k' g] d IH]; simpl.
  - tauto.
  - destruct (str_eqb_spec k k') as [->|Hk].
    + split; [discriminate|]. intros H. exfalso. apply H. now left.
    + rewrite IH. split.
      * intros H [E|Hin]; [now apply Hk|now apply H].
      * intros H Hin. apply H. now right.
Qed.

Lemma get_app_new (k k' : str) (g : group) (d : dict) :
  get k d = None -> get k' (d ++ [(k, g)]) =
  match get k' d with
  | Some x => Some x
  | None => if str_eqb k' k then Some g else None
  end.
Proof.
  intros _. induction d as [|[k0 g0] d IH]; simpl.
  - reflexivity.
  - destruct (str_eqb k' k0); [reflexivity|exact IH].
Qed.

Lemma get_update (k k' : str) (f : group -> group) (d : dict) :
  get k' (update k f d) =
  if str_eqb k' k then option_map f (get k' d) else get k' d.
Proof.
  induction d as [|[k0 g0] d IH]; simpl.
  - now destruct (str_eqb k' k).
  - destruct (str_eqb_spec k k0) as [->|Hk]; simpl.
    + destruct (str_eqb_spec k' k0) as [->|Hk']; reflexivity.
    + destruct (str_eqb_spec k' k0) as [->|Hk'].
      * destruct (str_eqb_spec k0 k) as [E|_]; [now symmetry in E|reflexivity].
      * exact IH.
Qed.

Lemma keys_update (k : str) (f : group -> group) (d : dict) :
  map fst (update k f d) = map fst d.
Proof.
  induction d as [|[k0 g0] d IH]; simpl; [reflexivity|].
  destruct (str_eqb k k0); simpl; [reflexivity|now rewrite IH].
Qed.

Lemma keys_group_step (d : dict) (e : experiment) :
  map fst (group_step d e) =
  match get (Configuration e) d with
  | None => map fst d ++ [Configuration e]
  | Some _ => map fst d
  end.
Proof.
  unfold group_step.
  destruct (str_eqb (AlgorithmType e) (lit "Pso")).
  - rewrite keys_update. destruct (get (Configuration e) d); [reflexivity|].
    now rewrite map_app.
  - destruct (_ && _).
    + rewrite keys_update. destruct (get (Configuration e) d); [reflexivity|].
      now rewrite map_app.
    + destruct (get (Configuration e) d); [reflexivity|]. now rewrite map_app.
Qed.

Lemma keys_fold (exps : list experiment) (d : dict) :
  NoDup (map fst d) ->
  NoDup (map fst (fold_left group_step exps d)) /\
  (forall k, In k (map fst (fold_left group_step exps d)) <->
             In k (map fst d) \/ In k (map Configuration exps)).
Proof.
  revert d. induction exps as [|e exps IH]; intros d Hd; simpl.
  - split; [exact Hd|]. intros k. tauto.
  - assert (Hstep : NoDup (map fst (group_step d e)) /\
                    forall k, In k (map fst (group_step d e)) <->
                              In k (map fst d) \/ Configuration e = k).
    { rewrite keys_group_step.
      destruct (get (Configuration e) d) as [g|] eqn:Hg.
      - split; [exact Hd|]. intros k. split; [tauto|].
        intros [H|<-]; [exact H|].
        destruct (in_dec (list_eq_dec ascii_dec) (Configuration e) (map fst d)) as [Hin|Hn];
          [exact Hin|]. apply get_none in Hn. congruence.
      - apply get_none in Hg. split.
        + apply NoDup_app; [exact Hd|repeat constructor; simpl; tauto|].
          intros a Ha [<-|[]]. contradiction.
        + intros k. rewrite in_app_iff. simpl. tauto. }
    destruct Hstep as [Hnd Hin].
    destruct (IH _ Hnd) as [IH1 IH2]. split; [exact IH1|].
    intros k. rewrite IH2, Hin. tauto.
Qed.

Lemma keys_group_experiments (exps : list experiment) :
  NoDup (map fst (group_experiments exps)) /\
  (forall k, In k (map fst (group_experiments exps)) <->
             In k (map Configuration exps)).
Proof.
  destruct (keys_fold exps [] (NoDup_nil _)) as [H1 H2]. split; [exact H1|].
  intros k. rewrite (H2 k). simpl. tauto.
Qed.

(** No group is formed only by the empty input. *)
Lemma no_group_empty_input (exps : list experiment) :
  group_experiments exps = [] <-> exps = [].
Proof.
  split; [|intros ->; reflexivity]. intros H.
  destruct exps as [|e exps]; [reflexivity|]. exfalso.
  destruct (keys_group_experiments (e :: exps)) as [_ Hk].
  assert (Hin : In (Configuration e) (map fst (group_experiments (e :: exps))))
    by (apply Hk; now left).
  rewrite H in Hin. exact Hin.
Qed.

(** * First write wins *)

Lemma ga_record_step (c : str) (d : dict) (e : experiment) :
  ga_record c (group_step d e) =
  match ga_record c d with
  | Some x => Some x
  | None => if genetic_for c e then Some e else None
  end.
Proof.
  unfold group_step, ga_record, genetic_for.
  set (d1 := match get (Configuration e) d with
             | None => d ++ [(Configuration e, {| PSO := []; GA := None |})]
             | Some _ => d
             end).
  assert (Hd1 : get c d1 = match get c d with
                           | Some x => Some x
                           | None => if str_eqb c (Configuration e)
                                     then Some {| PSO := []; GA := None |} else None
                           end).
  { subst d1. destruct (get (Configuration e) d) as [g|] eqn:Hg.
    - destruct (get c d) eqn:Hc; [reflexivity|].
      destruct (str_eqb_spec c (Configuration e)) as [->|]; [congruence|reflexivity].
    - now apply get_app_new. }
  assert (Hsym : str_eqb (Configuration e) c = str_eqb c (Configuration e)).
  { destruct (str_eqb_spec (Configuration e) c), (str_eqb_spec c (Configuration e));
      congruence. }
  rewrite Hsym.
  destruct (str_eqb_spec (AlgorithmType e) (lit "Pso")) as [Hpso|Hpso].
  - rewrite get_update, Hd1. rewrite Hpso.
    change (str_eqb (lit "Pso") (lit "Genetic")) with false. rewrite andb_false_r.
    destruct (str_eqb c (Configuration e)); destruct (get c d) as [[p [x|]]|]; reflexivity.
  - destruct (str_eqb (AlgorithmType e) (lit "Genetic")) eqn:Hgen; simpl andb.
    + destruct (ga_is_none (get (Configuration e) d1)) eqn:Hnone.
      * rewrite get_update, Hd1.
        destruct (str_eqb_spec c (Configuration e)) as [->|Hc].
        -- rewrite Hd1 in Hnone.
           destruct (get (Configuration e) d) as [[p [x|]]|]; simpl in *;
             try reflexivity; discriminate.
        -- rewrite andb_false_l. destruct (get c d) as [[p [x|]]|]; reflexivity.
      * rewrite Hd1.
        destruct (str_eqb_spec c (Configuration e)) as [->|Hc].
        -- rewrite Hd1 in Hnone.
           destruct (get (Configuration e) d) as [[p [x|]]|]; simpl in *;
             try reflexivity; discriminate.
        -- rewrite andb_false_l. destruct (get c d) as [[p [x|]]|]; reflexivity.
    + rewrite andb_false_r, Hd1.
      destruct (str_eqb c (Configuration e)); destruct (get c d) as [[p [x|]]|]; reflexivity.
Qed.

Lemma ga_record_fold (c : str) (exps : list experiment) (d : dict) :
  ga_record c (fold_left group_step exps d) =
  match ga_record c d with
  | Some x => Some x
  | None => first_genetic c exps
  end.
Proof.
  revert d. induction exps as [|e exps IH]; intros d; simpl.
  - now destruct (ga_record c d).
  - rewrite IH, ga_record_step. unfold first_genetic. cbn [find].
    destruct (ga_record c d); [reflexivity|].
    now destruct (genetic_for c e).
Qed.

(** * Monadic maps *)

Lemma mapM_ok {A B : Type} (f : A -> result B) (l : list A) (bs : list B) :
  mapM f l = Ok bs -> Forall2 (fun a b => f a = Ok b) l bs.
Proof.
  revert bs. induction l as [|a l IH]; simpl; intros bs H.
  - inversion H. constructor.
  - unbind H as b Hb.
    unbind H as bs' Hbs.
    inversion H. subst. constructor; auto.
Qed.

Lemma mapM_total {A B : Type} (f : A -> result B) (l : list A) :
  Forall (fun a => exists b, f a = Ok b) l -> exists bs, mapM f l = Ok bs.
Proof.
  induction 1 as [|a l [b Hb] _ [bs Hbs]]; simpl.
  - now eexists.
  - rewrite Hb, Hbs. simpl. now eexists.
Qed.

Lemma mapM_length {A B : Type} (f : A -> result B) (l : list A) (bs : list B) :
  mapM f l = Ok bs -> length bs = length l.
Proof.
  intros H. apply mapM_ok in H. symmetry. eapply Forall2_length, H.
Qed.

Lemma mapM_keyed {A B : Type} (f : A -> result B) (ps : list (B * A)) :
  Forall (fun p => f (snd p) = Ok (fst p)) ps ->
  mapM f (map snd ps) = Ok (map fst ps).
Proof.
  induction 1 as [|p ps Hp _ IH]; simpl; [reflexivity|].
  now rewrite Hp, IH.
Qed.

Lemma combine_keyed {A B : Type} (f : A -> result B) (l : list A) (bs : list B) :
  Forall2 (fun a b => f a = Ok b) l bs ->
  Forall (fun p => f (snd p) = Ok (fst p)) (combine bs l) /\
  map snd (combine bs l) = l.
Proof.
  induction 1 as [|a b l bs Hab _ [IH1 IH2]]; simpl.
  - split; [constructor|reflexivity].
  - split; [now constructor|now rewrite IH2].
Qed.

(** * The stable sort *)

Section Sorting.

Context {A : Type}.

Lemma insert_by_key_perm (x : Z * A) (l : list (Z * A)) :
  Permutation (insert_by_key x l) (x :: l).
Proof.
  induction l as [|y l IH]; simpl; [reflexivity|].
  destruct (fst x <=? fst y); [reflexivity|].
  rewrite IH. apply perm_swap.
Qed.

Lemma sort_by_key_perm (l : list (Z * A)) : Permutation (sort_by_key l) l.
Proof.
  induction l as [|x l IH]; simpl; [reflexivity|].
  rewrite insert_by_key_perm. now constructor.
Qed.

Lemma insert_by_key_sorted (x : Z * A) (l : list (Z * A)) :
  Sorted key_le l -> Sorted key_le (insert_by_key x l).
Proof.
  induction 1 as [|y l Hl IH Hhd]; simpl.
  - repeat constructor.
  - destruct (Z.leb_spec (fst x) (fst y)) as [Hxy|Hxy].
    + constructor; [now constructor|]. now constructor.
    + constructor; [exact IH|].
      destruct l as [|z l]; simpl.
      * constructor. unfold key_le. lia.
      * destruct (Z.leb_spec (fst x) (fst z)).
        -- constructor. unfold key_le. lia.
        -- constructor. now inversion Hhd.
Qed.

Lemma sort_by_key_sorted (l : list (Z * A)) : Sorted key_le (sort_by_key l).
Proof.
  induction l as [|x l IH]; simpl; [constructor|].
  now apply insert_by_key_sorted.
Qed.

Lemma sort_by_key_keys (l : list (Z * A)) :
  StronglySorted Z.le (map fst (sort_by_key l)).
Proof.
  assert (H : StronglySorted key_le (sort_by_key l)).
  { apply Sorted_StronglySorted; [|apply sort_by_key_sorted].
    intros a b c. unfold key_le. lia. }
  induction H as [|p ps _ IH Hall]; simpl; constructor; [exact IH|].
  rewrite Forall_map. exact Hall.
Qed.

End Sorting.

Lemma strongly_sorted_filter {A : Type} (R : Z -> Z -> Prop) (f : A -> Z)
  (P : A -> bool) (l : list A) :
  StronglySorted R (map f l) -> StronglySorted R (map f (filter P l)).
Proof.
  induction l as [|a l IH]; simpl; intros H; [constructor|].
  inversion H as [|x xs Hs Hall]; subst.
  destruct (P a); simpl; [|now apply IH].
  constructor; [now apply IH|].
  rewrite Forall_map in *. rewrite Forall_forall in *.
  intros y Hy. apply Hall. apply filter_In in Hy. tauto.
Qed.

Lemma strongly_sorted_strict (l : list Z) :
  StronglySorted Z.le l -> NoDup l -> StronglySorted Z.lt l.
Proof.
  induction 1 as [|x l _ IH Hall]; intros Hnd; constructor.
  - apply IH. now inversion Hnd.
  - inversion Hnd as [|y ys Hnin _]; subst.
    rewrite Forall_forall in *. intros y Hy.
    specialize (Hall y Hy). assert (x <> y) by (intros ->; contradiction). lia.
Qed.

Lemma NoDup_map_transfer {A B C : Type} (f : A -> B) (g : A -> C) (l : list A) :
  NoDup (map f l) ->
  (forall x y, In x l -> In y l -> g x = g y -> f x = f y) ->
  NoDup (map g l).
Proof.
  induction l as [|a l IH]; simpl; intros Hnd Hinj; [constructor|].
  inversion Hnd as [|x xs Hnin Hnd']; subst. constructor.
  - intros Hin. apply in_map_iff in Hin. destruct Hin as [b [Hb Hbl]].
    apply Hnin. apply in_map_iff. exists b. split; [|exact Hbl].
    apply Hinj; auto.
  - apply IH; [exact Hnd'|]. intros x y Hx Hy. apply Hinj; auto.
Qed.

(** * Ordering of the configurations *)

(** The outcome of [sorted_configs]: the items carry their keys, in
    ascending order, and are a rearrangement of the dictionary. *)
Lemma sorted_configs_ok (d : dict) (items : list (str * group)) :
  sorted_configs d = Ok items ->
  exists sp : list (Z * (str * group)),
    items = map snd sp /\
    Permutation items d /\
    StronglySorted Z.le (map fst sp) /\
    Forall (fun p => sort_key (snd p) = Ok (fst p)) sp.
Proof.
  unfold sorted_configs, sorted. intros H.
  unbind H as ks Hks. inversion H as [Hitems].
  apply mapM_ok in Hks. destruct (combine_keyed _ _ _ Hks) as [Hkeyed Hsnd].
  exists (sort_by_key (combine ks d)). repeat split.
  - rewrite <- Hsnd at 2. apply Permutation_map, sort_by_key_perm.
  - apply sort_by_key_keys.
  - eapply Permutation_Forall; [|exact Hkeyed].
    symmetry. apply sort_by_key_perm.
Qed.

Lemma sorted_configs_total (d : dict) :
  Forall (fun k => exists n, config_ordinal k = Ok n) (map fst d) ->
  exists items, sorted_configs d = Ok items.
Proof.
  intros H. unfold sorted_configs, sorted.
  destruct (mapM_total sort_key d) as [ks Hks].
  - rewrite Forall_map in H. exact H.
  - rewrite Hks. simpl. now eexists.
Qed.

Lemma rows_keyed (sp : list (Z * (str * group))) :
  rows (map snd sp) = map snd (filter (fun p => has_pso (snd p)) sp).
Proof.
  unfold rows. induction sp as [|p sp IH]; simpl; [reflexivity|].
  destruct (has_pso (snd p)); simpl; now rewrite IH.
Qed.

(** C4 (amended). For every input whose configuration strings carry an
    integer ordinal, and for every permutation of it, the configurations
    are ordered, and the rows with PSO statistics among them have
    non-decreasing ordinals; the ordinals are strictly increasing when
    different configuration strings of the input have different
    ordinals. *)
Theorem ordinals_ascending (exps exps' : list experiment) :
  Permutation exps exps' ->
  Forall (fun k => exists n, config_ordinal k = Ok n) (map Configuration exps) ->
  exists items ords,
    sorted_configs (group_experiments exps') = Ok items /\
    ordinals (rows items) = Ok ords /\
    StronglySorted Z.le ords /\
    ((forall e1 e2, In e1 exps -> In e2 exps ->
        config_ordinal (Configuration e1) = config_ordinal (Configuration e2) ->
        Configuration e1 = Configuration e2) ->
     StronglySorted Z.lt ords).
Proof.
  intros Hperm Hvalid.
  destruct (keys_group_experiments exps') as [Hnd Hkeys].
  assert (Hvalid' : Forall (fun k => exists n, config_ordinal k = Ok n)
                           (map fst (group_experiments exps'))).
  { rewrite Forall_forall in *. intros k Hk. apply Hvalid.
    apply Hkeys in Hk. eapply Permutation_in; [|exact Hk].
    symmetry. now apply Permutation_map. }
  destruct (sorted_configs_total _ Hvalid') as [items Hitems].
  destruct (sorted_configs_ok _ _ Hitems) as (sp & -> & Hp & Hsorted & Hkeyed).
  exists (map snd sp), (map fst (filter (fun p => has_pso (snd p)) sp)).
  split; [exact Hitems|]. split; [|split].
  - unfold ordinals. rewrite rows_keyed. apply mapM_keyed.
    rewrite Forall_forall in *. intros p Hin. apply Hkeyed.
    apply filter_In in Hin. tauto.
  - now apply strongly_sorted_filter.
  - intros Hinj. apply strongly_sorted_filter.
    apply strongly_sorted_strict; [exact Hsorted|].
    apply NoDup_map_transfer with (f := fun p => fst (snd p)).
    + rewrite <- (map_map snd fst).
      eapply Permutation_NoDup; [|exact Hnd].
      symmetry. now apply Permutation_map.
    + intros p q Hp' Hq' Heq.
      rewrite Forall_forall in Hkeyed.
      pose proof (Hkeyed p Hp') as Kp. pose proof (Hkeyed q Hq') as Kq.
      unfold sort_key in Kp, Kq.
      assert (Hsrc : forall r, In r sp ->
                exists e, In e exps /\ Configuration e = fst (snd r)).
      { intros r Hr.
        assert (Hk : In (fst (snd r)) (map fst (group_experiments exps'))).
        { eapply Permutation_in; [apply Permutation_map; exact Hp|].
          rewrite map_map. apply in_map_iff. now exists r. }
        apply Hkeys in Hk. apply in_map_iff in Hk. destruct Hk as [e [He Hin]].
        exists e. split; [|exact He].
        eapply Permutation_in; [symmetry; exact Hperm|exact Hin]. }
      destruct (Hsrc p Hp') as [e1 [He1 Hc1]].
      destruct (Hsrc q Hq') as [e2 [He2 Hc2]].
      rewrite <- Hc1, <- Hc2. apply Hinj; auto.
      rewrite Hc1, Hc2, Kp, Kq. now rewrite Heq.
Qed.

(** * The aggregation loop *)

Lemma split_once_present (sep : ascii) (s : str) :
  In sep s -> exists a b, split_once sep s = [a; b].
Proof.
  induction s as [|c s IH]; simpl; [contradiction|]. intros Hin.
  destruct (Ascii.eqb_spec c sep) as [->|Hc]; [now eexists; eexists|].
  destruct Hin as [E|Hin]; [contradiction|].
  destruct (IH Hin) as (a & b & ->). now eexists; eexists.
Qed.

Lemma split_once_absent (sep : ascii) (s : str) :
  ~ In sep s -> split_once sep s = [s].
Proof.
  induction s as [|c s IH]; simpl; intros Hn; [reflexivity|].
  destruct (Ascii.eqb_spec c sep) as [->|Hc].
  - exfalso. apply Hn. now left.
  - rewrite IH; [reflexivity|]. intros Hin. apply Hn. now right.
Qed.

Lemma config_label_ok (k : str) :
  (exists label, config_label k = Ok label) <->
  (exists tok, ordinal_token k = Ok tok) /\ In colon k.
Proof.
  unfold config_label. split.
  - intros [label H]. unbind H as tok Htok.
    apply bind_ok in H. destruct H as [rest [Hrest _]].
    split; [now exists tok|].
    destruct (in_dec ascii_dec colon k) as [Hin|Hn]; [exact Hin|].
    rewrite (split_once_absent _ _ Hn) in Hrest. discriminate.
  - intros [[tok Htok] Hin]. rewrite Htok.
    destruct (split_once_present _ _ Hin) as (a & b & ->). simpl. now eexists.
Qed.

Lemma key_ok_label (k : str) :
  key_ok k <->
  (exists n, config_ordinal k = Ok n) /\ (exists label, config_label k = Ok label).
Proof.
  unfold key_ok. rewrite config_label_ok. split.
  - intros [Hin [n Hn]]. split; [now exists n|]. split; [|exact Hin].
    unfold config_ordinal in Hn. apply bind_ok in Hn.
    destruct Hn as [tok [Htok _]]. now exists tok.
  - intros [Hn [_ Hin]]. now split.
Qed.

Lemma py_min_ok (l : list float64) : l <> [] -> exists x, py_min l = Ok x.
Proof. destruct l; [contradiction|]. simpl. now eexists. Qed.

Lemma py_max_ok (l : list float64) : l <> [] -> exists x, py_max l = Ok x.
Proof. destruct l; [contradiction|]. simpl. now eexists. Qed.

Lemma times_ok (l : list experiment) :
  exists ts, mapM (fun e => time_to_seconds (ComputationTime e)) l = Ok ts.
Proof.
  apply mapM_total. apply Forall_forall. intros e _. apply time_to_seconds_total.
Qed.

Lemma get_in (k : str) (g : group) (d : dict) :
  NoDup (map fst d) -> In (k, g) d -> get k d = Some g.
Proof.
  induction d as [|[k0 g0] d IH]; simpl; intros Hnd Hin; [contradiction|].
  inversion Hnd as [|x xs Hnin Hnd']; subst.
  destruct Hin as [E|Hin].
  - inversion E. subst. now rewrite str_eqb_refl.
  - destruct (str_eqb_spec k k0) as [->|_]; [|now apply IH].
    exfalso. apply Hnin. apply in_map_iff. now exists (k0, g).
Qed.

Lemma filter_all {A : Type} (P : A -> bool) (l : list A) :
  Forall (fun x => P x = true) l -> filter P l = l.
Proof.
  induction 1 as [|x l Hx _ IH]; simpl; [reflexivity|]. now rewrite Hx, IH.
Qed.

Lemma select_valid (pso ga : list float64) :
  length pso = length ga ->
  let valid := map (fun x => negb (isnan x)) ga in
  exists p g,
    select pso valid = Ok p /\ select ga valid = Ok g /\
    combine p g = filter (fun pg => negb (isnan (snd pg))) (combine pso ga).
Proof.
  intros Hlen valid. subst valid. unfold select.
  rewrite length_map, Hlen, Nat.eqb_refl.
  do 2 eexists. split; [reflexivity|]. split; [reflexivity|].
  revert ga Hlen. induction pso as [|a pso IH]; intros [|b ga] Hlen;
    try discriminate; simpl; [reflexivity|].
  destruct (isnan b); simpl; [|f_equal]; apply IH; now inversion Hlen.
Qed.

(** * First occurrences *)

Lemma lex_fst_le (p q : Z * nat) : lex p q -> fst p <= fst q.
Proof. intros [H|[H _]]; [lia|rewrite H; lia]. Qed.

Lemma first_pos_unique (a : list Z) (v : Z) (i : nat) :
  nth_error a i = Some v ->
  (forall j, (j < i)%nat -> nth_error a j <> Some v) ->
  first_pos v a = i.
Proof.
  revert i. induction a as [|x a IH]; intros i Hi Hmin.
  - destruct i; discriminate Hi.
  - simpl. destruct (Z.eqb_spec x v) as [->|Hx].
    + destruct i as [|i]; [reflexivity|].
      exfalso. apply (Hmin 0%nat); [lia|reflexivity].
    + destruct i as [|i]; [simpl in Hi; congruence|].
      f_equal. apply IH; [exact Hi|].
      intros j Hj. apply (Hmin (S j)). lia.
Qed.

Lemma first_pos_bound (a : list Z) (v : Z) :
  In v a -> (first_pos v a < length a)%nat.
Proof.
  induction a as [|x a IH]; simpl; [contradiction|]. intros Hin.
  destruct (Z.eqb_spec x v) as [->|Hx]; [lia|].
  destruct Hin as [E|Hin]; [contradiction|]. apply IH in Hin. lia.
Qed.

Lemma combine_seq_in (a : list Z) (s : nat) (v : Z) (i : nat) :
  In (v, i) (combine a (seq s (length a))) <->
  (s <= i)%nat /\ nth_error a (i - s) = Some v.
Proof.
  revert s. induction a as [|x a IH]; intros s; simpl.
  - split; [contradiction|]. intros [_ H]. destruct (i - s)%nat; discriminate H.
  - rewrite IH. split.
    + intros [E|[Hle Hn]].
      * inversion E. subst. rewrite Nat.sub_diag. split; [lia|reflexivity].
      * split; [lia|]. replace (i - s)%nat with (S (i - S s)) by lia. exact Hn.
    + intros [Hle Hn]. destruct (Nat.eq_dec i s) as [->|Hne].
      * left. rewrite Nat.sub_diag in Hn. simpl in Hn. congruence.
      * right. split; [lia|].
        replace (i - s)%nat with (S (i - S s)) in Hn by lia. exact Hn.
Qed.

Lemma insert_lex (x : Z * nat) (l : list (Z * nat)) :
  StronglySorted lex l ->
  Forall (fun q => (snd x < snd q)%nat) l ->
  StronglySorted lex (insert_by_key x l).
Proof.
  induction 1 as [|y l Hl IH Hall]; intros Hidx; simpl.
  - repeat constructor.
  - inversion Hidx as [|y' l' Hy Hrest]; subst.
    destruct (Z.leb_spec (fst x) (fst y)) as [Hxy|Hxy].
    + constructor; [now constructor|].
      assert (Hfst : Forall (fun q => fst y <= fst q) (y :: l)).
      { constructor; [lia|]. eapply Forall_impl; [|exact Hall].
        intros q Hq. exact (lex_fst_le _ _ Hq). }
      rewrite Forall_forall in *. intros q Hq.
      specialize (Hfst q Hq). specialize (Hidx q Hq). unfold lex. lia.
    + constructor; [now apply IH|].
      rewrite Forall_forall in *. intros q Hq.
      eapply Permutation_in in Hq; [|apply insert_by_key_perm].
      destruct Hq as [<-|Hq]; [left; lia|now apply Hall].
Qed.

Lemma sort_lex (a : list Z) (s : nat) :
  StronglySorted lex (sort_by_key (combine a (seq s (length a)))).
Proof.
  revert s. induction a as [|x a IH]; intros s; simpl; [constructor|].
  apply insert_lex; [apply IH|].
  apply Forall_forall. intros [v i] Hq.
  eapply Permutation_in in Hq; [|apply sort_by_key_perm].
  apply combine_seq_in in Hq. simpl. lia.
Qed.

Lemma runs_above (p : Z) (l : list (Z * nat)) :
  StronglySorted lex l -> Forall (fun q => p <= fst q) l ->
  Forall (fun r => p < fst r) (first_of_runs (Some p) l).
Proof.
  intros Hs. revert p. induction Hs as [|[v i] l Hl IH Hall]; intros p Hp; simpl.
  - constructor.
  - inversion Hp as [|y l' Hv Hrest]; subst. simpl in Hv.
    assert (Hnext : Forall (fun r => v < fst r) (first_of_runs (Some v) l)).
    { apply IH. eapply Forall_impl; [|exact Hall].
      intros q Hq. exact (lex_fst_le _ _ Hq). }
    destruct (Z.eqb_spec v p) as [->|Hne]; [exact Hnext|].
    constructor; [simpl; lia|].
    eapply Forall_impl; [|exact Hnext]. intros r Hr. simpl in Hr. lia.
Qed.

Lemma runs_first (prev : option Z) (l : list (Z * nat)) :
  StronglySorted lex l ->
  (forall p, prev = Some p -> Forall (fun q => p <= fst q) l) ->
  forall r, In r (first_of_runs prev l) ->
    In r l /\ forall j, In (fst r, j) l -> (snd r <= j)%nat.
Proof.
  intros Hs. revert prev. induction Hs as [|[v i] l Hl IH Hall]; intros prev Hprev r Hr.
  - destruct prev; contradiction.
  - assert (Hge : Forall (fun q => v <= fst q) l).
    { eapply Forall_impl; [|exact Hall]. intros q Hq. exact (lex_fst_le _ _ Hq). }
    assert (Htail : forall r, In r (first_of_runs (Some v) l) ->
              In r ((v, i) :: l) /\
              forall j, In (fst r, j) ((v, i) :: l) -> (snd r <= j)%nat).
    { intros r' Hr'.
      destruct (IH (Some v) (fun p E => ltac:(inversion E; subst; exact Hge)) r' Hr')
        as [Hin Hmin].
      split; [now right|]. intros j [E|Hj]; [|now apply Hmin].
      pose proof (runs_above v l Hl Hge) as Habove.
      rewrite Forall_forall in Habove. specialize (Habove r' Hr').
      inversion E. lia. }
    assert (Hhead : forall j, In (v, j) ((v, i) :: l) -> (i <= j)%nat).
    { intros j [E|Hj]; [inversion E; lia|].
      rewrite Forall_forall in Hall. specialize (Hall _ Hj).
      destruct Hall as [Hq|[_ Hq]]; simpl in *; lia. }
    simpl in Hr. destruct prev as [p|].
    + destruct (Z.eqb_spec v p) as [->|Hne]; [now apply Htail|].
      destruct Hr as [<-|Hr]; [|now apply Htail].
      split; [now left|exact Hhead].
    + destruct Hr as [<-|Hr]; [|now apply Htail].
      split; [now left|exact Hhead].
Qed.

Lemma runs_values (prev : option Z) (l : list (Z * nat)) (q : Z * nat) :
  In q l ->
  prev = Some (fst q) \/ In (fst q) (map fst (first_of_runs prev l)).
Proof.
  revert prev. induction l as [|[v i] l IH]; intros prev Hq; [contradiction|].
  simpl. destruct Hq as [<-|Hq].
  - simpl. destruct prev as [p|]; [|right; now left].
    destruct (Z.eqb_spec v p) as [->|Hne]; [now left|right; now left].
  - assert (Hnext : fst q = v \/ In (fst q) (map fst (first_of_runs (Some v) l))).
    { destruct (IH (Some v) Hq) as [E|Hin]; [left; congruence|now right]. }
    destruct prev as [p|].
    + destruct (Z.eqb_spec v p) as [->|Hne].
      * destruct Hnext as [E|Hin]; [left; congruence|now right].
      * right. simpl. destruct Hnext as [E|Hin]; [left; congruence|now right].
    + right. simpl. destruct Hnext as [E|Hin]; [left; congruence|now right].
Qed.

Lemma runs_increasing (l : list (Z * nat)) (prev : option Z) :
  StronglySorted lex l ->
  StronglySorted Z.lt (map fst (first_of_runs prev l)).
Proof.
  intros Hs. revert prev. induction Hs as [|[v i] l Hl IH Hall]; intros prev; simpl.
  - destruct prev; constructor.
  - assert (Hge : Forall (fun q => v <= fst q) l).
    { eapply Forall_impl; [|exact Hall]. intros q Hq. exact (lex_fst_le _ _ Hq). }
    assert (Hkeep : StronglySorted Z.lt (map fst ((v, i) :: first_of_runs (Some v) l))).
    { simpl. constructor; [apply IH|]. rewrite Forall_map.
      exact (runs_above v l Hl Hge). }
    destruct prev as [p|]; [|exact Hkeep].
    destruct (Z.eqb_spec v p); [apply IH|exact Hkeep].
Qed.

(** [unique_index] lists, for the distinct values in ascending order, the
    position of the first occurrence of each. *)
Lemma unique_index_first (a : list Z) :
  exists vs,
    unique_index a = map (fun v => first_pos v a) vs /\
    StronglySorted Z.lt vs /\
    (forall v, In v vs <-> In v a).
Proof.
  set (l := sort_by_key (combine a (seq 0 (length a)))).
  assert (Hs : StronglySorted lex l) by apply sort_lex.
  assert (Hin : forall v i, In (v, i) l <-> nth_error a i = Some v).
  { intros v i. subst l. split.
    - intros H. eapply Permutation_in in H; [|apply sort_by_key_perm].
      apply combine_seq_in in H. now rewrite Nat.sub_0_r in H.
    - intros H. eapply Permutation_in; [symmetry; apply sort_by_key_perm|].
      apply combine_seq_in. rewrite Nat.sub_0_r. split; [lia|exact H]. }
  exists (map fst (first_of_runs None l)). split; [|split].
  - unfold unique_index. fold l. rewrite map_map. apply map_ext_in.
    intros [v i] Hr. simpl.
    destruct (runs_first None l Hs (fun p E => ltac:(discriminate E)) _ Hr)
      as [Hl Hmin]. simpl in Hmin.
    symmetry. apply first_pos_unique; [now apply Hin|].
    intros j Hj Hnth. apply Hin, Hmin in Hnth. lia.
  - now apply runs_increasing.
  - intros v. split.
    + intros H. apply in_map_iff in H. destruct H as [[v' i] [<- Hr]].
      destruct (runs_first None l Hs (fun p E => ltac:(discriminate E)) _ Hr)
        as [Hl _].
      apply Hin in Hl. eapply nth_error_In, Hl.
    + intros H. apply In_nth_error in H. destruct H as [i Hi].
      apply Hin in Hi. destruct (runs_values None l _ Hi) as [E|Hv];
        [discriminate E|exact Hv].
Qed.

Lemma take_positions {A : Type} (a : list A) (dflt : A) (idx : list nat) :
  Forall (fun i => (i < length a)%nat) idx ->
  take a idx = Ok (map (fun i => nth i a dflt) idx).
Proof.
  unfold take. induction 1 as [|i idx Hi _ IH]; simpl; [reflexivity|].
  rewrite IH. destruct (nth_error a i) as [x|] eqn:Hx.
  - simpl. now rewrite (nth_error_nth _ _ dflt Hx).
  - apply nth_error_None in Hx. lia.
Qed.

(** On aligned columns the task-count series holds, for every distinct
    task count in ascending order, the PSO mean and the GA entry of the
    first position with that task count. *)
Lemma task_series_aligned (c : columns) :
  length (pso_avg_makespan c) = length (task_counts c) ->
  length (ga_makespan c) = length (task_counts c) ->
  exists vs,
    StronglySorted Z.lt vs /\
    (forall v, In v vs <-> In v (task_counts c)) /\
    task_series c
    = Ok (vs,
          map (fun v => nth (first_pos v (task_counts c)) (pso_avg_makespan c) nan) vs,
          map (fun v => nth (first_pos v (task_counts c)) (ga_makespan c) nan) vs).
Proof.
  intros Hp Hg.
  destruct (unique_index_first (task_counts c)) as (vs & Hidx & Hinc & Hmem).
  exists vs. split; [exact Hinc|]. split; [exact Hmem|].
  assert (Hb : Forall (fun i => (i < length (task_counts c))%nat)
                      (map (fun v => first_pos v (task_counts c)) vs)).
  { rewrite Forall_map. apply Forall_forall. intros v Hv.
    now apply first_pos_bound, Hmem. }
  unfold task_series. rewrite Hidx.
  rewrite (take_positions (task_counts c) 0) by exact Hb.
  rewrite (take_positions (pso_avg_makespan c) nan) by (now rewrite Hp).
  rewrite (take_positions (ga_makespan c) nan) by (now rewrite Hg).
  cbn [bind]. rewrite !map_map. do 3 f_equal.
  transitivity (map (fun v : Z => v) vs); [|apply map_id].
  apply map_ext_in. intros v Hv.
  apply Hmem, In_nth_error in Hv. destruct Hv as [i Hi].
  clear -Hi. revert i Hi.
  induction (task_counts c) as [|x l IH]; intros i Hi; [destruct i; discriminate|].
  simpl. destruct (Z.eqb_spec x v) as [->|Hx]; [reflexivity|].
  destruct i as [|i]; [simpl in Hi; congruence|]. eapply IH, Hi.
Qed.

(** * The analysis *)

Section EngineFacts.

Variable np_mean : list float64 -> float64.

Lemma aggregate_step_ok (c : columns) (x : str * group) :
  (exists label, config_label (fst x) = Ok label) ->
  exists c', aggregate_step np_mean c x = Ok c'.
Proof.
  intros [label Hl]. destruct x as [k g]. simpl in *. rewrite Hl. cbn [bind].
  unfold pso_block. destruct (PSO g) as [|first rest] eqn:Hp; cbn [bind].
  - unfold ga_block. destruct (GA g) as [e|]; [|now eexists].
    destruct (time_to_seconds_total (ComputationTime e)) as [t ->]. now eexists.
  - destruct (times_ok (first :: rest)) as [ts Hts]. rewrite Hts. cbn [bind].
    assert (Hlen : ts <> []).
    { apply mapM_length in Hts. destruct ts; [discriminate|discriminate]. }
    destruct (py_min_ok (map Makespan (first :: rest))) as [a ->]; [discriminate|].
    destruct (py_max_ok (map Makespan (first :: rest))) as [b ->]; [discriminate|].
    destruct (py_min_ok ts Hlen) as [a' ->]. destruct (py_max_ok ts Hlen) as [b' ->].
    cbn [bind]. unfold ga_block. destruct (GA g) as [e|]; [|now eexists].
    destruct (time_to_seconds_total (ComputationTime e)) as [t ->]. now eexists.
Qed.

Lemma aggregate_step_label (c c' : columns) (x : str * group) :
  aggregate_step np_mean c x = Ok c' ->
  exists label, config_label (fst x) = Ok label.
Proof.
  destruct x as [k g]. simpl. intros H. apply bind_ok in H.
  destruct H as [label [Hl _]]. now exists label.
Qed.

Lemma aggregate_step_extends (c c' : columns) (x : str * group) :
  aggregate_step np_mean c x = Ok c' -> extends_all np_mean c c' [x].
Proof.
  destruct x as [k g]. unfold aggregate_step. intros H.
  unbind H as label _.
  apply bind_ok in H. destruct H as [c1 [H1 H2]].
  assert (Hga : exists m t, c' = push_ga c1 m t /\ m = ga_value (k, g)).
  { unfold ga_block in H2. unfold ga_value. simpl. destruct (GA g) as [e|].
    - unbind H2 as t _. inversion H2. now eexists; eexists.
    - inversion H2. now eexists; eexists. }
  destruct Hga as (m & t & -> & ->).
  unfold pso_block in H1. unfold extends_all, rows, has_pso, pso_mean, first_tasks.
  simpl.
  destruct (PSO g) as [|first rest] eqn:Hp.
  - inversion H1. subst c1. simpl. rewrite !app_nil_r, ?length_app. simpl.
    repeat split; try reflexivity; lia.
  - unbind H1 as ts _.
    unbind H1 as a _.
    unbind H1 as b _.
    unbind H1 as a' _.
    unbind H1 as b' _.
    inversion H1. subst c1. simpl. rewrite ?Hp, ?length_app. simpl.
    repeat split; try reflexivity; lia.
Qed.

Lemma rows_cons (x : str * group) (items : list (str * group)) :
  rows (x :: items) = rows [x] ++ rows items.
Proof. unfold rows. simpl. now destruct (has_pso x). Qed.

Lemma loop_extends (items : list (str * group)) (c c' : columns) :
  foldM (aggregate_step np_mean) items c = Ok c' ->
  extends_all np_mean c c' items.
Proof.
  revert c. induction items as [|x items IH]; simpl; intros c H.
  - inversion H. subst. unfold extends_all, rows. simpl.
    rewrite !app_nil_r, !Nat.add_0_r. repeat split.
  - apply bind_ok in H. destruct H as [c1 [H1 H2]].
    apply aggregate_step_extends in H1. apply IH in H2.
    unfold extends_all in *.
    rewrite rows_cons, !map_app, !length_app.
    destruct H1 as (A1 & A2 & A3 & A4 & A5 & A6 & A7 & A8 & A9 & A10).
    destruct H2 as (B1 & B2 & B3 & B4 & B5 & B6 & B7 & B8 & B9 & B10).
    rewrite B2, A2, B4, A4, B5, A5, <- !app_assoc. cbn [length app map] in *.
    repeat split; try reflexivity; lia.
Qed.

Lemma loop_ok (items : list (str * group)) (c : columns) :
  Forall (fun x => exists label, config_label (fst x) = Ok label) items ->
  exists c', foldM (aggregate_step np_mean) items c = Ok c'.
Proof.
  intros H. revert c. induction H as [|x items Hx _ IH]; intros c; simpl.
  - now eexists.
  - destruct (aggregate_step_ok c x Hx) as [c1 ->]. cbn [bind]. apply IH.
Qed.

Lemma loop_labels (items : list (str * group)) (c c' : columns) :
  foldM (aggregate_step np_mean) items c = Ok c' ->
  Forall (fun x => exists label, config_label (fst x) = Ok label) items.
Proof.
  revert c. induction items as [|x items IH]; simpl; intros c H; [constructor|].
  apply bind_ok in H. destruct H as [c1 [H1 H2]]. constructor.
  - eapply aggregate_step_label, H1.
  - eapply IH, H2.
Qed.

Lemma aggregate_items (exps : list experiment) (c : columns) :
  aggregate np_mean exps = Ok c ->
  exists items,
    sorted_configs (group_experiments exps) = Ok items /\
    foldM (aggregate_step np_mean) items no_columns = Ok c.
Proof.
  unfold aggregate. intros H. apply bind_ok in H.
  destruct H as [items [H1 H2]]. now exists items.
Qed.

(** The shape of the columns: one label and one GA entry for every group,
    one entry of PSO statistics for every group with PSO trials. *)
Lemma columns_shape (exps : list experiment) (c : columns) :
  aggregate np_mean exps = Ok c ->
  exists items,
    sorted_configs (group_experiments exps) = Ok items /\
    length (config_names c) = length items /\
    ga_makespan c = map ga_value items /\
    length (ga_time c) = length items /\
    pso_avg_makespan c = map (pso_mean np_mean) (rows items) /\
    task_counts c = map first_tasks (rows items) /\
    length (pso_min_makespan c) = length (rows items) /\
    length (pso_max_makespan c) = length (rows items) /\
    length (pso_avg_time c) = length (rows items) /\
    length (pso_min_time c) = length (rows items) /\
    length (pso_max_time c) = length (rows items).
Proof.
  intros H. destruct (aggregate_items _ _ H) as [items [Hs Hl]].
  exists items. split; [exact Hs|]. apply loop_extends in Hl. exact Hl.
Qed.

(** When every group has a PSO trial the columns are aligned. *)
Lemma columns_aligned (exps : list experiment) (c : columns) :
  aggregate np_mean exps = Ok c ->
  Forall (fun x => has_pso x = true) (group_experiments exps) ->
  let n := length (group_experiments exps) in
  length (config_names c) = n /\ length (ga_makespan c) = n /\
  length (ga_time c) = n /\ length (pso_avg_makespan c) = n /\
  length (pso_min_makespan c) = n /\ length (pso_max_makespan c) = n /\
  length (pso_avg_time c) = n /\ length (pso_min_time c) = n /\
  length (pso_max_time c) = n /\ length (task_counts c) = n.
Proof.
  intros H Hall n.
  destruct (columns_shape _ _ H)
    as (items & Hs & A1 & A2 & A3 & A4 & A5 & A6 & A7 & A8 & A9 & A10).
  destruct (sorted_configs_ok _ _ Hs) as (sp & _ & Hp & _).
  assert (Hrows : rows items = items).
  { apply filter_all. eapply Permutation_Forall; [symmetry; exact Hp|exact Hall]. }
  assert (Hn : length items = n) by (subst n; now apply Permutation_length).
  rewrite Hrows in *. rewrite A2, A4, A5, !length_map.
  repeat split; congruence.
Qed.

Lemma filter_shorter {A : Type} (P : A -> bool) (l : list A) :
  Exists (fun x => P x = false) l -> (length (filter P l) < length l)%nat.
Proof.
  induction 1 as [x l Hx|x l _ IH]; simpl.
  - rewrite Hx. pose proof (filter_length_le P l). lia.
  - destruct (P x); simpl; lia.
Qed.

(** When some group has no PSO trial the PSO columns are shorter than
    the labels and the GA columns. *)
Lemma columns_misaligned (exps : list experiment) (c : columns) :
  aggregate np_mean exps = Ok c ->
  Exists (fun x => has_pso x = false) (group_experiments exps) ->
  (length (pso_avg_makespan c) < length (config_names c))%nat /\
  (length (task_counts c) < length (ga_makespan c))%nat.
Proof.
  intros H Hex.
  destruct (columns_shape _ _ H) as (items & Hs & A1 & A2 & _ & A4 & A5 & _).
  destruct (sorted_configs_ok _ _ Hs) as (sp & _ & Hp & _).
  assert (Hlt : (length (rows items) < length items)%nat).
  { apply filter_shorter. apply Exists_exists in Hex. destruct Hex as [x [Hx Hf]].
    apply Exists_exists. exists x. split; [|exact Hf].
    eapply Permutation_in; [symmetry; exact Hp|exact Hx]. }
  rewrite A1, A2, A4, A5, !length_map. split; exact Hlt.
Qed.

(** On aligned columns the ratio holds one quotient for every position
    whose GA makespan is a number, in order. *)
Lemma quality_ratio_aligned (c : columns) :
  length (pso_avg_makespan c) = length (ga_makespan c) ->
  quality_ratio c = Ok (quotients (pso_avg_makespan c) (ga_makespan c)).
Proof.
  intros Hlen. unfold quality_ratio, quotients.
  destruct (select_valid _ _ Hlen) as (p & g & Hp & Hg & Hpg).
  rewrite Hp, Hg. cbn [bind]. now rewrite Hpg.
Qed.

(** When every group has a PSO trial the analysis succeeds: the ratio
    holds the quotient of every row with a GA makespan, in order, and the
    task-count series holds, for every distinct task count in ascending
    order, the PSO mean and the GA entry of the first row with it. *)
Lemma analysis_aligned (exps : list experiment) (c : columns) :
  aggregate np_mean exps = Ok c ->
  Forall (fun x => has_pso x = true) (group_experiments exps) ->
  exists d,
    analysis np_mean exps = Ok (c, d) /\
    ratio d = quotients (pso_avg_makespan c) (ga_makespan c) /\
    StronglySorted Z.lt (unique_tasks d) /\
    (forall v, In v (unique_tasks d) <-> In v (task_counts c)) /\
    unique_pso d
    = map (fun v => nth (first_pos v (task_counts c)) (pso_avg_makespan c) nan)
          (unique_tasks d) /\
    unique_ga d
    = map (fun v => nth (first_pos v (task_counts c)) (ga_makespan c) nan)
          (unique_tasks d).
Proof.
  intros H Hall.
  destruct (columns_aligned _ _ H Hall)
    as (_ & Hga & _ & Hpso & _ & _ & _ & _ & _ & Htc).
  destruct (task_series_aligned c) as (vs & Hinc & Hmem & Hts); [congruence..|].
  eexists. unfold analysis, derive. rewrite H. cbn [bind].
  rewrite Hts, quality_ratio_aligned by congruence. cbn [bind].
  split; [reflexivity|]. cbn [ratio unique_tasks unique_pso unique_ga].
  repeat split; try assumption; apply Hmem; assumption.
Qed.

(** C8. When every configuration string contains a colon and has an
    ordinal token accepted by [int()], the aggregation succeeds; when
    some configuration string violates this, the aggregation raises. *)
Theorem key_precondition (exps : list experiment) :
  (Forall key_ok (map Configuration exps) ->
   exists c, aggregate np_mean exps = Ok c) /\
  (Exists (fun k => ~ key_ok k) (map Configuration exps) ->
   exists e, aggregate np_mean exps = Raise e).
Proof.
  destruct (keys_group_experiments exps) as [Hnd Hkeys]. split.
  - intros Hall. rewrite Forall_forall in Hall.
    assert (Hd : forall x, In x (group_experiments exps) -> key_ok (fst x)).
    { intros x Hx. apply Hall, Hkeys. now apply in_map. }
    destruct (sorted_configs_total (group_experiments exps)) as [items Hs].
    { rewrite Forall_map. apply Forall_forall. intros x Hx.
      apply Hd, key_ok_label in Hx. tauto. }
    destruct (sorted_configs_ok _ _ Hs) as (sp & _ & Hp & _).
    destruct (loop_ok items no_columns) as [c Hc].
    { apply Forall_forall. intros x Hx.
      assert (Hx' : In x (group_experiments exps))
        by (eapply Permutation_in; [exact Hp|exact Hx]).
      apply Hd, key_ok_label in Hx'. tauto. }
    exists c. unfold aggregate. rewrite Hs. exact Hc.
  - intros Hex. destruct (aggregate np_mean exps) as [c|e] eqn:Hagg; [|now exists e].
    exfalso. apply Exists_exists in Hex. destruct Hex as [k [Hk Hbad]].
    apply Hbad.
    destruct (aggregate_items _ _ Hagg) as [items [Hs Hl]].
    destruct (sorted_configs_ok _ _ Hs) as (sp & -> & Hp & _ & Hkeyed).
    apply loop_labels in Hl.
    apply Hkeys in Hk. apply in_map_iff in Hk. destruct Hk as [x [<- Hx]].
    assert (Hx' : In x (map snd sp))
      by (eapply Permutation_in; [symmetry; exact Hp|exact Hx]).
    apply key_ok_label. split.
    + apply in_map_iff in Hx'. destruct Hx' as [p [<- Hpin]].
      rewrite Forall_forall in Hkeyed. exists (fst p). now apply Hkeyed.
    + rewrite Forall_forall in Hl. now apply Hl.
Qed.

(** C5. The GA record kept for a configuration is the first record of
    the input, in input order, with that configuration and the genetic
    algorithm type; the GA makespan written for every configuration is
    the makespan of that record. *)
Theorem first_ga_kept (exps : list experiment) :
  (forall config, ga_record config (group_experiments exps)
                  = first_genetic config exps) /\
  (forall c, aggregate np_mean exps = Ok c ->
     exists items,
       sorted_configs (group_experiments exps) = Ok items /\
       ga_makespan c =
       map (fun x => match first_genetic (fst x) exps with
                     | Some e => Makespan e
                     | None => nan
                     end) items).
Proof.
  assert (Hrec : forall config,
             ga_record config (group_experiments exps) = first_genetic config exps).
  { intros config. unfold group_experiments. now rewrite ga_record_fold. }
  split; [exact Hrec|]. intros c Hc.
  destruct (columns_shape _ _ Hc) as (items & Hs & _ & Hga & _).
  exists items. split; [exact Hs|]. rewrite Hga.
  destruct (sorted_configs_ok _ _ Hs) as (sp & _ & Hp & _).
  destruct (keys_group_experiments exps) as [Hnd _].
  apply map_ext_in. intros [k g] Hin. unfold ga_value. simpl.
  rewrite <- Hrec. unfold ga_record.
  rewrite (get_in k g); [reflexivity|exact Hnd|].
  eapply Permutation_in; [exact Hp|exact Hin].
Qed.

(** C9. When the input forms no configuration group, as the empty input
    does, the analysis returns empty columns and empty derived series
    and does not raise. *)
Theorem analysis_empty (exps : list experiment) :
  group_experiments exps = [] ->
  analysis np_mean exps = Ok (no_columns, no_derived).
Proof.
  intros H. unfold analysis, aggregate. rewrite H. reflexivity.
Qed.

(** C1. On a configuration with a GA record and no PSO trial the loop
    writes a label and a GA entry but no PSO entry: the columns differ
    in length. *)
Theorem ga_only_misaligned :
  exists c,
    aggregate np_mean ga_only = Ok c /\
    length (config_names c) = 1%nat /\
    length (ga_makespan c) = 1%nat /\
    length (pso_avg_makespan c) = 0%nat /\
    length (task_counts c) = 0%nat.
Proof.
  eexists. split; [vm_compute; reflexivity|]. repeat split.
Qed.

(** C6. After a configuration without PSO trials the mask built from
    [ga_makespan] is longer than [pso_avg_makespan]: the ratio is not
    computed although the second configuration has both values. *)
Theorem ratio_fails_after_ga_only :
  exists c,
    aggregate np_mean ga_only_then_both = Ok c /\
    config_names c = [lit "1: A"; lit "2: B"] /\
    pso_avg_makespan c = [np_mean [of_dyadic 100 0]] /\
    ga_makespan c = [of_dyadic 50 0; of_dyadic 80 0] /\
    quality_ratio c = Raise IndexError /\
    analysis np_mean ga_only_then_both = Raise IndexError.
Proof.
  eexists. split; [vm_compute; reflexivity|].
  repeat split; vm_compute; reflexivity.
Qed.

(** C7. After a configuration without PSO trials the task-count series
    pairs the PSO mean of configuration ["2: B"], which has no GA record,
    with the GA makespan of configuration ["1: A"]. *)
Theorem task_series_after_ga_only :
  exists c,
    aggregate np_mean ga_only_then_pso = Ok c /\
    config_names c = [lit "1: A"; lit "2: B"] /\
    task_series c
    = Ok ([5], [np_mean [of_dyadic 100 0]], [of_dyadic 50 0]) /\
    first_genetic (lit "2: B") ga_only_then_pso = None /\
    first_genetic (lit "1: A") ga_only_then_pso
    = Some (record "1: A" "Genetic" 50 "0:00:08" 5).
Proof.
  eexists. split; [vm_compute; reflexivity|].
  repeat split; vm_compute; reflexivity.
Qed.

End EngineFacts.

(** * Closed instances *)

(** C2, instance: ["1:02:03.500"] is parsed to [3723.5]. *)
Lemma duration_parsed_witness :
  time_to_seconds (VStr (lit "1:02:03.500")) = Ok (of_dyadic 7447 (-1)).
Proof.
  change (lit "1:02:03.500")
    with (duration (lit "1") (lit "02") (lit "03") (Some (lit "500"))).
  rewrite duration_parsed.
  - vm_compute. reflexivity.
  - split; [discriminate|repeat constructor].
  - split; [discriminate|repeat constructor].
  - split; [discriminate|repeat constructor].
  - intros f Hf. inversion Hf. split; [discriminate|repeat constructor].
  - vm_compute. discriminate.
  - vm_compute. discriminate.
  - vm_compute. reflexivity.
Defined.

(** C2, counterexample: with an hour field of 310 digits the integer
    part does not convert to a float, the [except] clause returns [0.0],
    and the sum the fields stand for is not [0.0]. *)
Lemma huge_hours_counterexample :
  digits huge_hours /\ digits (lit "0") /\
  time_to_seconds (VStr (duration huge_hours (lit "0") (lit "0") None)) = Ok fzero /\
  duration_seconds huge_hours (lit "0") (lit "0") None = S754_infinity false /\
  time_to_seconds (VStr (duration huge_hours (lit "0") (lit "0") None))
  <> Ok (duration_seconds huge_hours (lit "0") (lit "0") None).
Proof.
  split; [|split; [|split; [|split]]].
  - split; [discriminate|]. unfold huge_hours. apply Forall_app. split.
    + repeat constructor.
    + apply Forall_forall. intros c Hc. apply repeat_spec in Hc. now subst.
  - split; [discriminate|repeat constructor].
  - vm_compute. reflexivity.
  - vm_compute. reflexivity.
  - vm_compute. discriminate.
Qed.

(** C4, counterexample: two configuration strings with the ordinal 1
    give two rows whose ordinals are not strictly increasing. *)
Lemma shared_ordinal_counterexample :
  exists items,
    sorted_configs (group_experiments shared_ordinal) = Ok items /\
    rows items = items /\
    map fst items = [lit "1: A"; lit "1: B"] /\
    ordinals (rows items) = Ok [1; 1] /\
    ~ StronglySorted Z.lt [1; 1].
Proof.
  eexists. split; [vm_compute; reflexivity|].
  split; [reflexivity|]. split; [reflexivity|]. split; [vm_compute; reflexivity|].
  intros H. inversion H as [|x l _ Hall]; subst.
  inversion Hall as [|y l' Hlt _]; subst. lia.
Qed.

(** C8, instances: a well-formed key and a key without a colon. *)
Lemma key_precondition_witness :
  (exists c, aggregate mean_seq two_ga = Ok c) /\
  (exists e, aggregate mean_seq no_colon = Raise e).
Proof.
  split.
  - apply (proj1 (key_precondition mean_seq two_ga)).
    repeat constructor; simpl; try (now eexists); tauto.
  - apply (proj2 (key_precondition mean_seq no_colon)).
    constructor. intros [Hin _]. simpl in Hin.
    repeat (destruct Hin as [Hin|Hin]; [discriminate Hin|]). exact Hin.
Defined.

(** C5, instance: of two GA records with makespans 90 and 70 the first
    one is kept. *)
Lemma first_ga_kept_witness :
  exists c, aggregate mean_seq two_ga = Ok c /\ ga_makespan c = [of_dyadic 90 0].
Proof.
  destruct (aggregate mean_seq two_ga) as [c|e] eqn:Hc; [|discriminate Hc].
  exists c. split; [reflexivity|].
  destruct (proj2 (first_ga_kept mean_seq two_ga) c Hc) as [items [Hs ->]].
  vm_compute in Hs. inversion Hs. reflexivity.
Defined.

(** C9, instance: the empty input. *)
Lemma analysis_empty_witness :
  analysis mean_seq [] = Ok (no_columns, no_derived).
Proof. apply (analysis_empty mean_seq []). reflexivity. Defined.



(** C4, instance: the ordinals 10 and 2, given in both orders. *)
Lemma ordinals_ascending_witness :
  exists items ords,
    sorted_configs (group_experiments (rev descending)) = Ok items /\
    ordinals (rows items) = Ok ords /\
    StronglySorted Z.le ords /\
    StronglySorted Z.lt ords.
Proof.
  destruct (ordinals_ascending descending (rev descending))
    as (items & ords & H1 & H2 & H3 & H4).
  - apply Permutation_rev.
  - repeat constructor; eexists; vm_compute; reflexivity.
  - exists items, ords. repeat split; try assumption. apply H4.
    intros e1 e2 [<-|[<-|[]]] [<-|[<-|[]]] H; try reflexivity;
      vm_compute in H; discriminate H.
Defined.

(** * Further instances *)

(** An hour field longer than the limit of [int()] is rejected although
    its value is 1. *)
Lemma long_hours_rejected :
  digits long_hours /\ digits_value long_hours = 1 /\
  time_to_seconds (VStr (duration long_hours (lit "0") (lit "0") None)) = Ok fzero.
Proof.
  split; [|split].
  - split.
    + unfold long_hours. simpl. discriminate.
    + unfold long_hours. apply Forall_app. split.
      * apply Forall_forall. intros c Hc. apply repeat_spec in Hc. now subst.
      * repeat constructor.
  - vm_compute. reflexivity.
  - vm_compute. reflexivity.
Qed.

(** The run on two PSO trials and one GA record of one configuration:
    mean 110, minimum 100, maximum 120, GA makespan 90, five tasks and
    the ratio 110/90. *)
Lemma small_analysis :
  exists c d,
    analysis mean_seq small = Ok (c, d) /\
    config_names c = [lit "1: Small"] /\
    pso_avg_makespan c = [of_dyadic 110 0] /\
    pso_min_makespan c = [of_dyadic 100 0] /\
    pso_max_makespan c = [of_dyadic 120 0] /\
    ga_makespan c = [of_dyadic 90 0] /\
    pso_avg_time c = [of_dyadic 11 0] /\
    ga_time c = [of_dyadic 8 0] /\
    task_counts c = [5] /\
    unique_tasks d = [5] /\
    ratio d = [fdiv (of_dyadic 110 0) (of_dyadic 90 0)].
Proof.
  do 2 eexists. split; [vm_compute; reflexivity|].
  repeat split; vm_compute; reflexivity.
Qed.

(** * Further properties of the grouping, the ordering and the columns *)

Lemma pso_trials_step (c : str) (d : dict) (e : experiment) :
  pso_trials c (group_step d e) =
  pso_trials c d ++ (if pso_for c e then [e] else []).
Proof.
  unfold group_step, pso_trials, pso_for.
  set (d1 := match get (Configuration e) d with
             | None => d ++ [(Configuration e, {| PSO := []; GA := None |})]
             | Some _ => d
             end).
  assert (Hd1 : match get c d1 with Some g => PSO g | None => [] end
                = match get c d with Some g => PSO g | None => [] end).
  { subst d1. destruct (get (Configuration e) d) as [g|] eqn:Hg; [reflexivity|].
    rewrite (get_app_new _ _ _ _ Hg).
    destruct (get c d); [reflexivity|]. now destruct (str_eqb c (Configuration e)). }
  assert (Hin : str_eqb c (Configuration e) = true -> exists g, get c d1 = Some g).
  { intros Hc. destruct (str_eqb_spec c (Configuration e)) as [->|]; [|discriminate].
    subst d1. destruct (get (Configuration e) d) as [g|] eqn:Hg.
    - exists g. exact Hg.
    - rewrite (get_app_new _ _ _ _ Hg), Hg, str_eqb_refl. now eexists. }
  assert (Hsym : str_eqb (Configuration e) c = str_eqb c (Configuration e)).
  { destruct (str_eqb_spec (Configuration e) c), (str_eqb_spec c (Configuration e));
      congruence. }
  rewrite Hsym.
  destruct (str_eqb (AlgorithmType e) (lit "Pso")) eqn:Hpso.
  - rewrite get_update, andb_true_r.
    destruct (str_eqb c (Configuration e)) eqn:Hc.
    + destruct (Hin eq_refl) as [g Hg]. rewrite <- Hd1, Hg. reflexivity.
    + rewrite Hd1. now rewrite app_nil_r.
  - rewrite andb_false_r, app_nil_r.
    destruct (_ && _); [|exact Hd1].
    rewrite get_update. destruct (str_eqb c (Configuration e)); [|exact Hd1].
    rewrite <- Hd1. now destruct (get c d1).
Qed.

Lemma pso_trials_fold (c : str) (exps : list experiment) (d : dict) :
  pso_trials c (fold_left group_step exps d) =
  pso_trials c d ++ filter (pso_for c) exps.
Proof.
  revert d. induction exps as [|e exps IH]; intros d; simpl.
  - now rewrite app_nil_r.
  - rewrite IH, pso_trials_step, <- app_assoc. f_equal.
    now destruct (pso_for c e).
Qed.

Lemma absent_from_spec (seen : list str) (y : str) :
  absent_from seen y = true <-> ~ In y seen.
Proof.
  unfold absent_from. rewrite negb_true_iff. split.
  - intros H Hin. assert (Hex : existsb (str_eqb y) seen = true).
    { apply existsb_exists. exists y. split; [exact Hin|apply str_eqb_refl]. }
    congruence.
  - intros H. destruct (existsb (str_eqb y) seen) eqn:Hex; [|reflexivity].
    exfalso. apply H. apply existsb_exists in Hex. destruct Hex as [z [Hz Hyz]].
    destruct (str_eqb_spec y z); [now subst|discriminate].
Qed.

Lemma keys_fold_first_seen (exps : list experiment) (d : dict) :
  map fst (fold_left group_step exps d) =
  map fst d ++ filter (absent_from (map fst d)) (first_seen (map Configuration exps)).
Proof.
  revert d. induction exps as [|e exps IH]; intros d; simpl.
  - now rewrite app_nil_r.
  - rewrite IH, keys_group_step. set (k := Configuration e).
    set (fs := first_seen (map Configuration exps)).
    destruct (get k d) as [g|] eqn:Hg.
    + assert (Hk : In k (map fst d)).
      { destruct (in_dec (list_eq_dec ascii_dec) k (map fst d)) as [H|H]; [exact H|].
        apply get_none in H. congruence. }
      f_equal. assert (Hab : absent_from (map fst d) k = false).
      { destruct (absent_from (map fst d) k) eqn:E; [|reflexivity].
        apply absent_from_spec in E. contradiction. }
      rewrite Hab. clear IH. induction fs as [|y fs IHfs]; simpl; [reflexivity|].
      destruct (str_eqb_spec y k) as [->|Hy]; simpl.
      * now rewrite Hab.
      * now rewrite IHfs.
    + apply get_none in Hg. apply absent_from_spec in Hg. rewrite Hg.
      rewrite <- app_assoc. simpl. do 2 f_equal.
      clear IH. induction fs as [|y fs IHfs]; simpl; [reflexivity|].
      assert (Hy : absent_from (map fst d ++ [k]) y
                   = negb (str_eqb y k) && absent_from (map fst d) y).
      { unfold absent_from. rewrite existsb_app. simpl. rewrite orb_false_r.
        rewrite negb_orb. apply andb_comm. }
      rewrite Hy. destruct (str_eqb y k); simpl; [exact IHfs|].
      destruct (absent_from (map fst d) y); [now rewrite IHfs|exact IHfs].
Qed.

Lemma filter_true {A : Type} (l : list A) : filter (fun _ => true) l = l.
Proof. induction l as [|a l IH]; simpl; [reflexivity|now rewrite IH]. Qed.

(** X1. The grouping loop forms one group for every distinct
    configuration string, in the order of first occurrence and without
    duplicates, and the PSO trials of a group are the records of the
    input with that configuration and the type ["Pso"], in input
    order. *)
Theorem groups_of_input (exps : list experiment) :
  map fst (group_experiments exps) = first_seen (map Configuration exps) /\
  NoDup (map fst (group_experiments exps)) /\
  (forall config,
     pso_trials config (group_experiments exps) = filter (pso_for config) exps).
Proof.
  split; [|split].
  - unfold group_experiments. rewrite keys_fold_first_seen. simpl.
    apply filter_true.
  - apply keys_group_experiments.
  - intros config. unfold group_experiments. now rewrite pso_trials_fold.
Qed.

Lemma insert_by_key_stable {A : Type} (k : Z) (x : Z * A) (l : list (Z * A)) :
  filter (fun p => fst p =? k) (insert_by_key x l)
  = filter (fun p => fst p =? k) (x :: l).
Proof.
  induction l as [|y l IH]; [reflexivity|].
  cbn [insert_by_key]. destruct (Z.leb_spec (fst x) (fst y)) as [Hxy|Hxy]; [reflexivity|].
  cbn [filter] in *. rewrite IH.
  destruct (Z.eqb_spec (fst x) k), (Z.eqb_spec (fst y) k); try reflexivity. lia.
Qed.

Lemma sort_by_key_stable {A : Type} (k : Z) (l : list (Z * A)) :
  filter (fun p => fst p =? k) (sort_by_key l) = filter (fun p => fst p =? k) l.
Proof.
  induction l as [|x l IH]; [reflexivity|].
  cbn [sort_by_key fold_right]. fold (sort_by_key l).
  rewrite insert_by_key_stable. cbn [filter]. now rewrite IH.
Qed.

Lemma filter_keyed (k : Z) (sp : list (Z * (str * group))) :
  Forall (fun p => sort_key (snd p) = Ok (fst p)) sp ->
  filter (has_ordinal k) (map snd sp) = map snd (filter (fun p => fst p =? k) sp).
Proof.
  induction 1 as [|p sp Hp _ IH]; [reflexivity|].
  cbn [map filter]. unfold has_ordinal at 1. rewrite Hp.
  destruct (fst p =? k); cbn [map]; now rewrite IH.
Qed.

(** X2. [sorted_configs] only rearranges the groups, and the groups
    that share an ordinal keep the order they have in [configs]. *)
Theorem sorted_configs_stable (d : dict) (items : list (str * group)) :
  sorted_configs d = Ok items ->
  Permutation items d /\
  forall k, filter (has_ordinal k) items = filter (has_ordinal k) d.
Proof.
  intros H. pose proof (sorted_configs_ok _ _ H) as (_ & _ & Hp & _).
  split; [exact Hp|]. intros k.
  unfold sorted_configs, sorted in H. unbind H as ks Hks. inversion H as [Hitems].
  apply mapM_ok in Hks. destruct (combine_keyed _ _ _ Hks) as [Hkeyed Hsnd].
  rewrite filter_keyed.
  - rewrite sort_by_key_stable, <- filter_keyed by exact Hkeyed. now rewrite Hsnd.
  - eapply Permutation_Forall; [|exact Hkeyed]. symmetry. apply sort_by_key_perm.
Qed.

Lemma mapM_seconds (l : list experiment) (ts : list float64) :
  mapM (fun e => time_to_seconds (ComputationTime e)) l = Ok ts ->
  ts = map (fun e => seconds (ComputationTime e)) l.
Proof.
  revert ts. induction l as [|e l IH]; simpl; intros ts H.
  - now inversion H.
  - unbind H as t Ht. unbind H as ts' Hts. inversion H. subst.
    unfold seconds at 1. rewrite Ht. simpl. f_equal. now apply IH.
Qed.

Section Columns.

Variable np_mean : list float64 -> float64.

Lemma append_columns_assoc (a b c : columns) :
  append_columns (append_columns a b) c = append_columns a (append_columns b c).
Proof. unfold append_columns. simpl. now rewrite <- !app_assoc. Qed.

Lemma columns_of_cons (x : str * group) (items : list (str * group)) :
  columns_of np_mean (x :: items)
  = append_columns (columns_of np_mean [x]) (columns_of np_mean items).
Proof.
  unfold columns_of, append_columns. cbn [config_names pso_avg_makespan
    pso_min_makespan pso_max_makespan ga_makespan pso_avg_time pso_min_time
    pso_max_time ga_time task_counts].
  rewrite rows_cons, !map_app. reflexivity.
Qed.

Lemma aggregate_step_columns (c c' : columns) (x : str * group) :
  aggregate_step np_mean c x = Ok c' ->
  c' = append_columns c (columns_of np_mean [x]).
Proof.
  destruct x as [k g]. unfold aggregate_step. intros H.
  unbind H as label Hl. unbind H as c1 H1.
  assert (Hga : c' = push_ga c1 (ga_value (k, g)) (ga_seconds (k, g))).
  { unfold ga_block in H. unfold ga_value, ga_seconds. simpl.
    destruct (GA g) as [e|].
    - unbind H as t Ht. inversion H. unfold seconds. now rewrite Ht.
    - now inversion H. }
  subst c'. unfold pso_block in H1.
  unfold columns_of, append_columns, rows, has_pso, label_of, trial_makespans,
    trial_times, first_tasks.
  cbn [fst snd filter map]. rewrite Hl.
  destruct (PSO g) as [|first rest] eqn:Hp.
  - inversion H1. subst c1. destruct c. cbn.
    now rewrite !app_nil_r.
  - unbind H1 as ts Hts. unbind H1 as a Ha. unbind H1 as b Hb.
    unbind H1 as a' Ha'. unbind H1 as b' Hb'. inversion H1. subst c1.
    apply mapM_seconds in Hts. subst ts.
    cbn [map snd]. rewrite Hp. cbn [map] in *. rewrite Ha, Hb, Ha', Hb'.
    destruct c. reflexivity.
Qed.

Lemma loop_columns (items : list (str * group)) (c c' : columns) :
  foldM (aggregate_step np_mean) items c = Ok c' ->
  c' = append_columns c (columns_of np_mean items).
Proof.
  revert c. induction items as [|x items IH]; simpl; intros c H.
  - inversion H. subst. destruct c'. unfold append_columns. cbn.
    now rewrite !app_nil_r.
  - unbind H as c1 H1. apply aggregate_step_columns in H1. apply IH in H.
    subst. now rewrite (columns_of_cons x items), append_columns_assoc.
Qed.

(** X3. After a successful aggregation every list follows the ordered
    groups: the labels and the GA lists hold one entry for every group,
    the PSO lists and the task counts one entry for every group with PSO
    trials, each entry computed from that group alone. *)
Theorem aggregate_columns (exps : list experiment) (c : columns) :
  aggregate np_mean exps = Ok c ->
  exists items,
    sorted_configs (group_experiments exps) = Ok items /\
    c = columns_of np_mean items.
Proof.
  intros H. destruct (aggregate_items _ _ _ H) as [items [Hs Hl]].
  exists items. split; [exact Hs|]. apply loop_columns in Hl. exact Hl.
Qed.

End Columns.

Lemma flt_rank (x y : float64) :
  isnan x = false -> isnan y = false ->
  (flt x y = true <-> rank_lt (float_rank x) (float_rank y)).
Proof.
  intros Hx Hy. unfold flt, SFltb, SFcompare, float_rank, rank_lt.
  destruct x as [sx|sx| |sx mx ex]; try discriminate Hx;
  destruct y as [sy|sy| |sy my ey]; try discriminate Hy;
  try destruct sx; try destruct sy; simpl;
  try (split; [discriminate|lia]);
  try (split; [intros _; lia|reflexivity]).
  - change (Pos.compare_cont Eq mx my) with (Pos.compare mx my).
    destruct (Z.compare_spec ex ey) as [E|E|E];
      destruct (Pos.compare_spec mx my) as [F|F|F]; simpl;
      split; try discriminate; try reflexivity; try lia.
  - change (Pos.compare_cont Eq mx my) with (Pos.compare mx my).
    destruct (Z.compare_spec ex ey) as [E|E|E];
      destruct (Pos.compare_spec mx my) as [F|F|F]; simpl;
      split; try discriminate; try reflexivity; try lia.
Qed.

Lemma flt_nan_l (y : float64) : flt nan y = false.
Proof. reflexivity. Qed.

Lemma flt_not_nan (x y : float64) :
  flt x y = true -> isnan x = false /\ isnan y = false.
Proof.
  unfold flt, SFltb, SFcompare.
  destruct x as [sx|sx| |sx mx ex]; try discriminate;
  destruct y as [sy|sy| |sy my ey]; try discriminate; auto.
Qed.

Lemma flt_irrefl (x : float64) : flt x x = false.
Proof.
  destruct (flt x x) eqn:H; [|reflexivity]. exfalso.
  destruct (flt_not_nan _ _ H) as [Hx _].
  apply (flt_rank x x Hx Hx) in H. unfold rank_lt in H.
  destruct (float_rank x) as [[a b] c]. lia.
Qed.

(** [z] not below [m] and [y] below [m]: [z] is not below [y]. *)
Lemma flt_below (z m y : float64) :
  flt z m = false -> flt y m = true -> flt z y = false.
Proof.
  intros Hzm Hym. destruct (flt_not_nan _ _ Hym) as [Hy Hm].
  destruct (isnan z) eqn:Hz; [now destruct z|].
  destruct (flt z y) eqn:Hzy; [|reflexivity]. exfalso.
  apply (flt_rank _ _ Hz Hy) in Hzy. apply (flt_rank _ _ Hy Hm) in Hym.
  assert (Hn : ~ rank_lt (float_rank z) (float_rank m)).
  { intros H. apply (flt_rank _ _ Hz Hm) in H. congruence. }
  unfold rank_lt in *.
  destruct (float_rank z) as [[a1 a2] a3], (float_rank m) as [[b1 b2] b3],
    (float_rank y) as [[c1 c2] c3]. lia.
Qed.

(** [z] not above [m] and [y] above [m]: [z] is not above [y]. *)
Lemma flt_above (z m y : float64) :
  flt m z = false -> flt m y = true -> flt y z = false.
Proof.
  intros Hmz Hmy. destruct (flt_not_nan _ _ Hmy) as [Hm Hy].
  destruct (isnan z) eqn:Hz; [destruct z; try discriminate Hz; now destruct y|].
  destruct (flt y z) eqn:Hyz; [|reflexivity]. exfalso.
  apply (flt_rank _ _ Hy Hz) in Hyz. apply (flt_rank _ _ Hm Hy) in Hmy.
  assert (Hn : ~ rank_lt (float_rank m) (float_rank z)).
  { intros H. apply (flt_rank _ _ Hm Hz) in H. congruence. }
  unfold rank_lt in *.
  destruct (float_rank z) as [[a1 a2] a3], (float_rank m) as [[b1 b2] b3],
    (float_rank y) as [[c1 c2] c3]. lia.
Qed.

Lemma fold_least (l seen : list float64) (m : float64) :
  is_least seen m ->
  is_least (seen ++ l) (fold_left (fun m y => if flt y m then y else m) l m).
Proof.
  revert seen m. induction l as [|y l IH]; intros seen m [Hin Hall]; simpl.
  - rewrite app_nil_r. now split.
  - replace (seen ++ y :: l) with ((seen ++ [y]) ++ l)
      by (now rewrite <- app_assoc).
    apply IH. destruct (flt y m) eqn:Hy; split.
    + apply in_or_app. right. now left.
    + intros z Hz. apply in_app_or in Hz. destruct Hz as [Hz|[<-|[]]].
      * eapply flt_below; [apply Hall, Hz|exact Hy].
      * apply flt_irrefl.
    + apply in_or_app. now left.
    + intros z Hz. apply in_app_or in Hz. destruct Hz as [Hz|[<-|[]]].
      * now apply Hall.
      * exact Hy.
Qed.

Lemma fold_greatest (l seen : list float64) (m : float64) :
  is_greatest seen m ->
  is_greatest (seen ++ l) (fold_left (fun m y => if flt m y then y else m) l m).
Proof.
  revert seen m. induction l as [|y l IH]; intros seen m [Hin Hall]; simpl.
  - rewrite app_nil_r. now split.
  - replace (seen ++ y :: l) with ((seen ++ [y]) ++ l)
      by (now rewrite <- app_assoc).
    apply IH. destruct (flt m y) eqn:Hy; split.
    + apply in_or_app. right. now left.
    + intros z Hz. apply in_app_or in Hz. destruct Hz as [Hz|[<-|[]]].
      * eapply flt_above; [apply Hall, Hz|exact Hy].
      * apply flt_irrefl.
    + apply in_or_app. now left.
    + intros z Hz. apply in_app_or in Hz. destruct Hz as [Hz|[<-|[]]].
      * now apply Hall.
      * exact Hy.
Qed.

Lemma py_min_least (l : list float64) :
  l <> [] -> is_least l (value_of (py_min l)).
Proof.
  destruct l as [|x l]; [contradiction|]. intros _. simpl.
  apply (fold_least l [x] x). split; [now left|].
  intros y [<-|[]]. apply flt_irrefl.
Qed.

Lemma py_max_greatest (l : list float64) :
  l <> [] -> is_greatest l (value_of (py_max l)).
Proof.
  destruct l as [|x l]; [contradiction|]. intros _. simpl.
  apply (fold_greatest l [x] x). split; [now left|].
  intros y [<-|[]]. apply flt_irrefl.
Qed.

Lemma rows_have_trials (items : list (str * group)) (x : str * group) :
  In x (rows items) -> trial_makespans x <> [] /\ trial_times x <> [].
Proof.
  intros H. apply filter_In in H. destruct H as [_ H].
  unfold has_pso in H. unfold trial_makespans, trial_times.
  destruct (PSO (snd x)); [discriminate H|]. split; discriminate.
Qed.

Lemma Forall2_map_of {A B : Type} (f : A -> B) (R : A -> B -> Prop) (l : list A) :
  (forall x, In x l -> R x (f x)) -> Forall2 R l (map f l).
Proof.
  induction l as [|a l IH]; simpl; intros H; constructor.
  - apply H. now left.
  - apply IH. intros x Hx. apply H. now right.
Qed.

Section Extremes.

Variable np_mean : list float64 -> float64.

(** X4. The minimum and the maximum written for a group are values of
    its trials, and no trial of the group lies below the minimum or above
    the maximum; this holds for the makespans and for the parsed
    times. *)
Theorem pso_extremes (exps : list experiment) (c : columns) :
  aggregate np_mean exps = Ok c ->
  exists items,
    sorted_configs (group_experiments exps) = Ok items /\
    Forall2 (fun x m => is_least (trial_makespans x) m)
            (rows items) (pso_min_makespan c) /\
    Forall2 (fun x m => is_greatest (trial_makespans x) m)
            (rows items) (pso_max_makespan c) /\
    Forall2 (fun x m => is_least (trial_times x) m)
            (rows items) (pso_min_time c) /\
    Forall2 (fun x m => is_greatest (trial_times x) m)
            (rows items) (pso_max_time c).
Proof.
  intros H. destruct (aggregate_items _ _ _ H) as [items [Hs Hl]].
  exists items. split; [exact Hs|]. apply loop_columns in Hl. subst c.
  cbn [columns_of append_columns no_columns pso_min_makespan pso_max_makespan
       pso_min_time pso_max_time app].
  repeat split; apply Forall2_map_of; intros x Hx;
    destruct (rows_have_trials _ _ Hx) as [Hm Ht].
  - now apply py_min_least.
  - now apply py_max_greatest.
  - now apply py_min_least.
  - now apply py_max_greatest.
Qed.

End Extremes.

Lemma split_on_first (sep : ascii) (s pre : str) :
  item0 (split_on sep s) = Ok pre -> ~ In sep pre.
Proof.
  revert pre. induction s as [|c s IH]; simpl; intros pre H.
  - inversion H. tauto.
  - destruct (Ascii.eqb_spec c sep) as [->|Hc].
    + inversion H. tauto.
    + destruct (split_on sep s) as [|w ws] eqn:Hs.
      * inversion H. subst. intros [E|[]]. congruence.
      * inversion H. subst. intros [E|Hin]; [congruence|].
        now apply (IH w).
Qed.

Lemma split_ws_tokens (s : str) :
  Forall (fun w => w <> [] /\ Forall (fun c => is_space c = false /\ In c s) w)
         (split_ws s).
Proof.
  assert (Hweak : forall (c : ascii) (s' : str) (l : list str),
             Forall (fun w => w <> [] /\
                       Forall (fun d => is_space d = false /\ In d s') w) l ->
             Forall (fun w => w <> [] /\
                       Forall (fun d => is_space d = false /\ In d (c :: s')) w) l).
  { intros c s' l. apply Forall_impl. intros w [Hne Hw]. split; [exact Hne|].
    eapply Forall_impl; [|exact Hw]. intros d [Hd Hin]. split; [exact Hd|now right]. }
  induction s as [|c s IH]; [constructor|].
  cbn [split_ws]. destruct (is_space c) eqn:Hc; [now apply Hweak|].
  assert (Hone : [c] <> [] /\
                 Forall (fun d => is_space d = false /\ In d (c :: s)) [c]).
  { split; [discriminate|]. constructor; [|constructor].
    split; [exact Hc|now left]. }
  destruct s as [|d s'].
  - constructor; [exact Hone|constructor].
  - apply (Hweak c) in IH.
    destruct (is_space d) eqn:Hd.
    + constructor; [exact Hone|exact IH].
    + destruct (split_ws (d :: s')) as [|w ws] eqn:Hs.
      * constructor; [exact Hone|constructor].
      * inversion IH as [|w' ws' [Hne Hw] Hws]; subst.
        constructor; [|exact Hws]. split; [discriminate|].
        constructor; [|exact Hw]. split; [exact Hc|now left].
Qed.

Lemma item_last_in {A : Type} (l : list A) (x : A) :
  item_last l = Ok x -> In x l.
Proof.
  induction l as [|a l IH]; [discriminate|]. simpl.
  destruct l as [|b l']; intros H.
  - inversion H. now left.
  - right. now apply IH.
Qed.

Lemma drop_while_suffix (p : ascii -> bool) (s : str) :
  exists w, s = w ++ drop_while p s.
Proof.
  induction s as [|c s [w IH]]; simpl.
  - now exists [].
  - destruct (p c); [|now exists []].
    exists (c :: w). simpl. now rewrite <- IH.
Qed.

Lemma drop_while_first (p : ascii -> bool) (s r : str) (c : ascii) :
  drop_while p s = c :: r -> p c = false.
Proof.
  induction s as [|a s IH]; simpl; [discriminate|].
  destruct (p a) eqn:Ha; [exact IH|]. intros H. inversion H. now subst.
Qed.

Lemma strip_with_first (p : ascii -> bool) (s r : str) (c : ascii) :
  strip_with p s = c :: r -> p c = false.
Proof.
  unfold strip_with. intros H.
  destruct (drop_while_suffix p (rev (drop_while p s))) as [w Hw].
  apply (f_equal (@rev ascii)) in Hw.
  rewrite rev_involutive, rev_app_distr, H in Hw. simpl in Hw.
  now apply drop_while_first in Hw.
Qed.

(** X5. A label is the ordinal token, a colon and a blank, and a name:
    the token is not empty and holds neither white space nor a colon, the
    name has at most 20 characters and does not start with white space,
    and the token is the text whose integer value orders the
    configuration. *)
Theorem label_format (config_name label : str) :
  config_label config_name = Ok label ->
  exists num name,
    label = num ++ lit ": " ++ name /\
    num <> [] /\
    Forall (fun c => is_space c = false /\ c <> colon) num /\
    (length name <= 20)%nat /\
    (forall c rest, name = c :: rest -> is_space c = false) /\
    (forall n, config_ordinal config_name = Ok n -> py_int num = Ok n).
Proof.
  unfold config_label. intros H.
  unbind H as num Hnum. unbind H as rest Hrest. inversion H as [Hlabel].
  exists num, (firstn 20 (strip rest)). split; [reflexivity|].
  unfold ordinal_token in Hnum.
  destruct (item0 (split_on colon config_name)) as [pre|] eqn:Hpre;
    [|discriminate Hnum].
  cbn [bind] in Hnum.
  pose proof (split_on_first _ _ _ Hpre) as Hcolon.
  pose proof (item_last_in _ _ Hnum) as Hin.
  pose proof (split_ws_tokens pre) as Htok.
  rewrite Forall_forall in Htok. destruct (Htok _ Hin) as [Hne Hchars].
  split; [exact Hne|]. split; [|split; [|split]].
  - eapply Forall_impl; [|exact Hchars]. intros c [Hc Hc']. split; [exact Hc|].
    intros ->. contradiction.
  - apply firstn_le_length.
  - intros c r Hname. destruct (strip rest) as [|c' r'] eqn:Hs; [discriminate|].
    inversion Hname. subst. unfold strip in Hs. eapply strip_with_first, Hs.
  - intros n Hn. unfold config_ordinal, ordinal_token in Hn.
    rewrite Hpre in Hn. cbn [bind] in Hn. rewrite Hnum in Hn. exact Hn.
Qed.

Lemma not_in_app (c : ascii) (a b : str) :
  ~ In c a -> ~ In c b -> ~ In c (a ++ b).
Proof. intros Ha Hb H. apply in_app_or in H. tauto. Qed.

Lemma not_in_cons (c d : ascii) (a : str) :
  c <> d -> ~ In c a -> ~ In c (d :: a).
Proof. intros Hd Ha [E|H]; [congruence|contradiction]. Qed.

(** The value of a text with three fields, from the two texts read in
    the third one. *)
Lemma time_of_fields (h m s : str) :
  ~ In colon h -> ~ In colon m -> ~ In colon s ->
  time_to_seconds (VStr (h ++ colon :: m ++ colon :: s)) =
  try_except
    (hv <- py_int h ;;
     mv <- py_int m ;;
     sv <- py_float (seconds_text s) ;;
     iv <- float_of_int (hv * 3600 + mv * 60) ;;
     msv <- py_float (lit "0." ++ fraction_text s) ;;
     Ok (fadd (fadd iv sv) msv))
    fzero.
Proof.
  intros Hh Hm Hs. cbn [time_to_seconds].
  rewrite (time_to_seconds_try_fields _ h m s); [reflexivity|].
  rewrite split_on_app by exact Hh. rewrite split_on_app by exact Hm.
  now rewrite split_on_absent by exact Hs.
Qed.

(** X6. In the third field only the texts before the first and
    between the first and the second dot are read: what follows a second
    dot is ignored, and a field without a dot reads as one with the
    fraction ["0"]. *)
Theorem third_field_parts (h m s1 s2 x : str) :
  ~ In colon h -> ~ In colon m ->
  ~ In colon s1 -> ~ In colon s2 -> ~ In colon x ->
  ~ In dot s1 -> ~ In dot s2 ->
  time_to_seconds (VStr (h ++ colon :: m ++ colon :: s1 ++ dot :: s2 ++ dot :: x))
  = time_to_seconds (VStr (h ++ colon :: m ++ colon :: s1 ++ dot :: s2)) /\
  time_to_seconds (VStr (h ++ colon :: m ++ colon :: s1))
  = time_to_seconds (VStr (h ++ colon :: m ++ colon :: s1 ++ dot :: lit "0")).
Proof.
  intros Hh Hm H1 H2 Hx D1 D2.
  assert (Hdc : dot <> colon) by discriminate.
  assert (Hcd : colon <> dot) by discriminate.
  split.
  - rewrite !time_of_fields; try assumption.
    + unfold seconds_text, fraction_text.
      rewrite !split_on_app by assumption.
      now rewrite (split_on_absent dot s2) by exact D2.
    + apply not_in_app; [exact H1|]. now apply not_in_cons.
    + apply not_in_app; [exact H1|]. apply not_in_cons; [exact Hcd|].
      apply not_in_app; [exact H2|]. now apply not_in_cons.
  - rewrite !time_of_fields; try assumption.
    + unfold seconds_text, fraction_text.
      rewrite split_on_app by assumption.
      now rewrite split_on_absent by exact D1.
    + apply not_in_app; [exact H1|]. apply not_in_cons; [exact Hcd|].
      simpl. intros [E|[]]. discriminate E.
Qed.

(** X7. A duration of three fields with a character foreign to
    numerals in the hours, the minutes, the seconds text or the fraction
    text is parsed to [0.0]. *)
Theorem foreign_char_zero (t h m s : str) (c : ascii) :
  split_on colon t = [h; m; s] ->
  (In c h /\ int_char c = false) \/
  (In c m /\ int_char c = false) \/
  (In c (seconds_text s) /\ float_char c = false) \/
  (In c (fraction_text s) /\ float_char c = false) ->
  time_to_seconds (VStr t) = Ok fzero.
Proof.
  intros Hs Hc. cbn [time_to_seconds].
  rewrite (time_to_seconds_try_fields t h m s Hs).
  destruct Hc as [[Hin Hc]|[[Hin Hc]|[[Hin Hc]|[Hin Hc]]]].
  - now rewrite (py_int_foreign h c Hin Hc).
  - rewrite (py_int_foreign m c Hin Hc). now destruct (py_int h).
  - rewrite (py_float_foreign _ c Hin Hc).
    destruct (py_int h); [|reflexivity]. now destruct (py_int m).
  - rewrite (py_float_foreign (lit "0." ++ fraction_text s) c)
      by (try exact Hc; apply in_or_app; now right).
    destruct (py_int h); [|reflexivity]. destruct (py_int m); [|reflexivity].
    destruct (py_float (seconds_text s)); [|reflexivity]. cbn [bind].
    now destruct (float_of_int _).
Qed.

Lemma where_from_filter (i : nat) (ga : list float64) :
  where_from i (map (fun x => negb (isnan x)) ga)
  = map (fun j => (i + j)%nat) (number_positions ga).
Proof.
  unfold number_positions. revert i. induction ga as [|x ga IH]; intros i;
    [reflexivity|].
  cbn [map where_from length seq filter nth].
  rewrite <- seq_shift, filter_map_swap. cbn [nth].
  rewrite IH.
  destruct (isnan x); cbn [negb app map]; rewrite map_map.
  - apply map_ext. intros j. lia.
  - rewrite Nat.add_0_r. f_equal. apply map_ext. intros j. lia.
Qed.

Lemma quotients_length (pso ga : list float64) :
  length pso = length ga ->
  length (quotients pso ga) = length (number_positions ga).
Proof.
  unfold quotients, number_positions. rewrite length_map.
  revert pso. induction ga as [|x ga IH]; intros [|p pso] Hlen;
    try discriminate; [reflexivity|].
  cbn [combine filter snd length seq nth].
  rewrite <- seq_shift, filter_map_swap. cbn [nth].
  inversion Hlen as [Hlen'].
  destruct (isnan x); cbn [negb length]; rewrite length_map;
    now rewrite (IH pso Hlen'), Hlen'.
Qed.

Lemma quality_ratio_cases (c : columns) :
  quality_ratio c =
  if Nat.eqb (length (pso_avg_makespan c)) (length (ga_makespan c))
  then Ok (quotients (pso_avg_makespan c) (ga_makespan c))
  else Raise IndexError.
Proof.
  destruct (Nat.eqb_spec (length (pso_avg_makespan c)) (length (ga_makespan c)))
    as [Hlen|Hlen].
  - now apply quality_ratio_aligned.
  - unfold quality_ratio, select. rewrite length_map.
    apply Nat.eqb_neq in Hlen. now rewrite Hlen.
Qed.

(** X8. The ratio is computed exactly when [pso_avg_makespan] and
    [ga_makespan] have the same length: then it holds the quotient of
    every position whose GA makespan is a number, in order, and
    otherwise the mask raises [IndexError]. *)
Theorem quality_ratio_outcome (c : columns) :
  (length (pso_avg_makespan c) = length (ga_makespan c) ->
   quality_ratio c = Ok (quotients (pso_avg_makespan c) (ga_makespan c))) /\
  (length (pso_avg_makespan c) <> length (ga_makespan c) ->
   quality_ratio c = Raise IndexError).
Proof.
  rewrite quality_ratio_cases. split; intros H.
  - apply Nat.eqb_eq in H. now rewrite H.
  - apply Nat.eqb_neq in H. now rewrite H.
Qed.

(** X9. When the ratio is computed the chart gets one tick label for
    every ratio, and the labels are the positions, counted from 1, that
    the numbers have in [ga_makespan]. *)
Theorem ratio_ticks_match (c : columns) (r : list float64) :
  quality_ratio c = Ok r ->
  length (ratio_ticks c) = length r /\
  ratio_ticks c = map (fun i => py_str (i + 1)) (number_positions (ga_makespan c)).
Proof.
  intros H.
  assert (Hticks : ratio_ticks c
                   = map (fun i => py_str (i + 1)) (number_positions (ga_makespan c))).
  { unfold ratio_ticks, np_where. rewrite where_from_filter, map_map.
    apply map_ext. intros i. reflexivity. }
  split; [|exact Hticks].
  rewrite quality_ratio_cases in H.
  destruct (Nat.eqb_spec (length (pso_avg_makespan c)) (length (ga_makespan c)))
    as [Hlen|Hlen]; [|discriminate H].
  inversion H. rewrite Hticks, length_map. symmetry. now apply quotients_length.
Qed.

Lemma mapM_raise {A B : Type} (f : A -> result B) (l : list A) (e : exn) :
  mapM f l = Raise e -> exists a, In a l /\ f a = Raise e.
Proof.
  induction l as [|a l IH]; simpl; [discriminate|]. intros H.
  destruct (f a) as [b|e'] eqn:Ha.
  - cbn [bind] in H. destruct (mapM f l) as [bs|e''] eqn:Hl; [discriminate H|].
    cbn [bind] in H. inversion H. subst.
    destruct (IH eq_refl) as [x [Hx Hfx]]. exists x. split; [now right|exact Hfx].
  - cbn [bind] in H. inversion H. subst. exists a. split; [now left|exact Ha].
Qed.

Lemma foldM_raise {A B : Type} (f : B -> A -> result B) (l : list A) (b : B) (e : exn) :
  foldM f l b = Raise e -> exists a b', In a l /\ f b' a = Raise e.
Proof.
  revert b. induction l as [|a l IH]; simpl; [discriminate|]. intros b H.
  destruct (f b a) as [b1|e'] eqn:Ha.
  - cbn [bind] in H. destruct (IH _ H) as (x & b' & Hx & Hf).
    exists x, b'. split; [now right|exact Hf].
  - cbn [bind] in H. inversion H. subst. exists a, b. split; [now left|exact Ha].
Qed.

Lemma py_int_raises (s : str) (e : exn) : py_int s = Raise e -> e = ValueError.
Proof.
  unfold py_int. destruct (take_sign _) as [neg body].
  destruct (digit_part body) as [ds|]; [|intros H; now inversion H].
  destruct (int_max_str_digits <? _); intros H; now inversion H.
Qed.

Lemma item_last_raises {A : Type} (l : list A) (e : exn) :
  item_last l = Raise e -> e = IndexError /\ l = [].
Proof.
  induction l as [|a l IH]; simpl; intros H.
  - inversion H. now split.
  - destruct l as [|b l']; [discriminate H|].
    destruct (IH H) as [_ Habs]. discriminate Habs.
Qed.

Lemma ordinal_token_raises (k : str) (e : exn) :
  ordinal_token k = Raise e -> e = IndexError.
Proof.
  unfold ordinal_token. pose proof (split_on_nonempty colon k) as Hne.
  destruct (split_on colon k) as [|pre l]; [contradiction|]. cbn [item0 bind].
  intros H. now apply item_last_raises in H.
Qed.

Lemma item1_split_once (k : str) (e : exn) :
  item1 (split_once colon k) = Raise e -> e = IndexError /\ ~ In colon k.
Proof.
  intros H. destruct (in_dec ascii_dec colon k) as [Hin|Hn].
  - destruct (split_once_present _ _ Hin) as (a & b & Hs). rewrite Hs in H.
    discriminate H.
  - rewrite (split_once_absent _ _ Hn) in H. inversion H. now split.
Qed.

Lemma filter_shorter_iff {A : Type} (P : A -> bool) (l : list A) :
  length (filter P l) = length l <-> Forall (fun x => P x = true) l.
Proof.
  split.
  - intros H. apply Forall_forall. intros x Hx.
    destruct (P x) eqn:Hp; [reflexivity|]. exfalso.
    assert (Hlt : (length (filter P l) < length l)%nat).
    { apply filter_shorter. apply Exists_exists. now exists x. }
    lia.
  - intros H. now rewrite filter_all.
Qed.

Lemma filter_permutation {A : Type} (P : A -> bool) (l l' : list A) :
  Permutation l l' -> Permutation (filter P l) (filter P l').
Proof.
  induction 1 as [|x l l' _ IH|x y l|l l' l'' _ IH1 _ IH2]; simpl.
  - constructor.
  - destruct (P x); [now constructor|exact IH].
  - destruct (P x), (P y); try reflexivity. apply perm_swap.
  - now transitivity (filter P l').
Qed.

Section Outcome.

Variable np_mean : list float64 -> float64.

(** X10. An aggregation that raises names its cause: a [ValueError]
    comes from an ordinal token rejected by [int()], an [IndexError] from
    a configuration string with no token before the colon or with no
    colon. *)
Theorem aggregate_failure (exps : list experiment) (e : exn) :
  aggregate np_mean exps = Raise e ->
  exists k,
    In k (map Configuration exps) /\
    ((e = ValueError /\
      exists tok, ordinal_token k = Ok tok /\ py_int tok = Raise ValueError) \/
     (e = IndexError /\
      (ordinal_token k = Raise IndexError \/ ~ In colon k))).
Proof.
  intros H. destruct (keys_group_experiments exps) as [_ Hkeys].
  unfold aggregate in H.
  destruct (sorted_configs (group_experiments exps)) as [items|e'] eqn:Hs.
  - cbn [bind] in H. apply foldM_raise in H. destruct H as ([k g] & c & Hin & Hstep).
    exists k. split.
    { apply Hkeys. destruct (sorted_configs_ok _ _ Hs) as (sp & _ & Hp & _).
      apply (in_map fst) in Hin. eapply Permutation_in; [|exact Hin].
      now apply Permutation_map. }
    right. destruct (config_label k) as [label|e'] eqn:Hl.
    + destruct (aggregate_step_ok np_mean c (k, g)) as [c' Hc'];
        [now exists label|congruence].
    + unfold aggregate_step in Hstep. rewrite Hl in Hstep. cbn [bind] in Hstep.
      inversion Hstep. subst e'. unfold config_label in Hl.
      destruct (ordinal_token k) as [tok|e'] eqn:Htok.
      * cbn [bind] in Hl.
        destruct (item1 (split_once colon k)) as [rest|e'] eqn:Hrest;
          [discriminate Hl|].
        cbn [bind] in Hl. inversion Hl. subst e'.
        apply item1_split_once in Hrest. destruct Hrest as [-> Hn].
        split; [reflexivity|now right].
      * cbn [bind] in Hl. inversion Hl. subst e'.
        pose proof (ordinal_token_raises _ _ Htok) as ->.
        split; [reflexivity|now left].
  - cbn [bind] in H. inversion H. subst e'.
    unfold sorted_configs, sorted in Hs.
    destruct (mapM sort_key (group_experiments exps)) as [ks|e'] eqn:Hm;
      [discriminate Hs|].
    cbn [bind] in Hs. inversion Hs. subst e'.
    apply mapM_raise in Hm. destruct Hm as ([k g] & Hin & Hk).
    exists k. split; [apply Hkeys; now apply (in_map fst) in Hin|].
    unfold sort_key, config_ordinal in Hk. cbn [fst] in Hk.
    destruct (ordinal_token k) as [tok|e'] eqn:Htok.
    + cbn [bind] in Hk. pose proof (py_int_raises _ _ Hk) as ->.
      left. split; [reflexivity|]. now exists tok.
    + cbn [bind] in Hk. inversion Hk. subst e'.
      pose proof (ordinal_token_raises _ _ Htok) as ->.
      right. split; [reflexivity|now left].
Qed.

Lemma aggregate_lengths (exps : list experiment) (c : columns) :
  aggregate np_mean exps = Ok c ->
  exists items,
    Permutation items (group_experiments exps) /\
    length (ga_makespan c) = length items /\
    length (pso_avg_makespan c) = length (rows items) /\
    length (task_counts c) = length (rows items).
Proof.
  intros H. destruct (aggregate_items _ _ _ H) as [items [Hs Hl]].
  destruct (sorted_configs_ok _ _ Hs) as (sp & _ & Hp & _).
  exists items. split; [exact Hp|]. apply loop_columns in Hl. subst c.
  cbn. now rewrite !length_map.
Qed.

(** X11. After a successful aggregation whose task counts fit 64-bit
    integers the task-count series never raises: it lists the distinct
    task counts in ascending order, each with the entries that
    [pso_avg_makespan] and [ga_makespan] hold at the first position of
    that count in [task_counts]. *)
Theorem task_series_total (exps : list experiment) (c : columns) :
  aggregate np_mean exps = Ok c ->
  forallb int64 (task_counts c) = true ->
  exists vs,
    task_series c
    = Ok (vs,
          map (fun v => nth (first_pos v (task_counts c)) (pso_avg_makespan c) nan) vs,
          map (fun v => nth (first_pos v (task_counts c)) (ga_makespan c) nan) vs) /\
    StronglySorted Z.lt vs /\
    (forall v, In v vs <-> In v (task_counts c)).
Proof.
  intros H _. destruct (aggregate_lengths _ _ H) as (items & _ & Hga & Hpso & Htc).
  assert (Hle : (length (rows items) <= length items)%nat)
    by apply filter_length_le.
  destruct (unique_index_first (task_counts c)) as (vs & Hidx & Hinc & Hmem).
  exists vs. split; [|split; [exact Hinc|exact Hmem]].
  assert (Hb : Forall (fun i => (i < length (task_counts c))%nat)
                      (map (fun v => first_pos v (task_counts c)) vs)).
  { rewrite Forall_map. apply Forall_forall. intros v Hv.
    now apply first_pos_bound, Hmem. }
  unfold task_series. rewrite Hidx.
  rewrite (take_positions (task_counts c) 0) by exact Hb.
  rewrite (take_positions (pso_avg_makespan c) nan)
    by (eapply Forall_impl; [|exact Hb]; cbv beta; intros; lia).
  rewrite (take_positions (ga_makespan c) nan)
    by (eapply Forall_impl; [|exact Hb]; cbv beta; intros; lia).
  cbn [bind]. rewrite !map_map. do 3 f_equal.
  transitivity (map (fun v : Z => v) vs); [|apply map_id].
  apply map_ext_in. intros v Hv.
  apply Hmem, In_nth_error in Hv. destruct Hv as [i Hi].
  clear -Hi. revert i Hi.
  induction (task_counts c) as [|x l IH]; intros i Hi; [destruct i; discriminate|].
  simpl. destruct (Z.eqb_spec x v) as [->|Hx]; [reflexivity|].
  destruct i as [|i]; [simpl in Hi; congruence|]. eapply IH, Hi.
Qed.

(** X12. On the lists of a successful aggregation whose task counts
    fit 64-bit integers, the statements that derive the series
    ([unique_tasks_idx] to [ratio]) all succeed when every group has a
    PSO trial, and stop with [IndexError] at the ratio, after the
    task-count series, when some group has none.  The chart calls that
    stand before and between these statements are no part of [derive]:
    whether the script gets as far as them is not stated here. *)
Theorem derive_outcome (exps : list experiment) (c : columns) :
  aggregate np_mean exps = Ok c ->
  forallb int64 (task_counts c) = true ->
  (Forall (fun x => has_pso x = true) (group_experiments exps) ->
   exists d, derive c = Ok d /\
             ratio d = quotients (pso_avg_makespan c) (ga_makespan c)) /\
  (Exists (fun x => has_pso x = false) (group_experiments exps) ->
   (exists r, task_series c = Ok r) /\
   quality_ratio c = Raise IndexError /\
   derive c = Raise IndexError).
Proof.
  intros H _. split.
  - intros Hall. destruct (analysis_aligned np_mean _ _ H Hall) as (d & Hd & Hr & _).
    exists d. split; [|exact Hr].
    unfold analysis in Hd. rewrite H in Hd. cbn [bind] in Hd.
    destruct (derive c) as [d'|e]; [|discriminate Hd].
    cbn [bind] in Hd. now inversion Hd.
  - intros Hex.
    destruct (aggregate_lengths _ _ H) as (items & Hp & Hga & Hpso & Htc).
    assert (Hlt : (length (rows items) < length items)%nat).
    { apply filter_shorter. apply Exists_exists in Hex. destruct Hex as [x [Hx Hf]].
      apply Exists_exists. exists x. split; [|exact Hf].
      eapply Permutation_in; [symmetry; exact Hp|exact Hx]. }
    assert (Hts : exists r, task_series c = Ok r).
    { unfold task_series.
      destruct (unique_index_first (task_counts c)) as (vs & Hidx & _ & Hmem).
      assert (Hb : Forall (fun i => (i < length (task_counts c))%nat)
                          (unique_index (task_counts c))).
      { rewrite Hidx, Forall_map. apply Forall_forall. intros v Hv.
        now apply first_pos_bound, Hmem. }
      rewrite (take_positions (task_counts c) 0) by exact Hb.
      rewrite (take_positions (pso_avg_makespan c) nan)
        by (eapply Forall_impl; [|exact Hb]; cbv beta; intros; lia).
      rewrite (take_positions (ga_makespan c) nan)
        by (eapply Forall_impl; [|exact Hb]; cbv beta; intros; lia).
      cbn [bind]. now eexists. }
    assert (Hq : quality_ratio c = Raise IndexError).
    { rewrite quality_ratio_cases.
      destruct (Nat.eqb_spec (length (pso_avg_makespan c)) (length (ga_makespan c)));
        [lia|reflexivity]. }
    split; [exact Hts|]. split; [exact Hq|].
    unfold derive. destruct Hts as [[[ut up] ug] ->]. cbn [bind].
    now rewrite Hq.
Qed.

(** X13. After a successful aggregation the PSO lists are as long as
    the label and GA lists exactly when every group has a PSO trial. *)
Theorem alignment_condition (exps : list experiment) (c : columns) :
  aggregate np_mean exps = Ok c ->
  (length (pso_avg_makespan c) = length (config_names c) /\
   length (task_counts c) = length (ga_makespan c))
  <-> Forall (fun x => has_pso x = true) (group_experiments exps).
Proof.
  intros H. destruct (aggregate_items _ _ _ H) as [items [Hs Hl]].
  destruct (sorted_configs_ok _ _ Hs) as (sp & _ & Hp & _).
  apply loop_columns in Hl. subst c. cbn. rewrite !length_map.
  unfold rows. rewrite <- (filter_shorter_iff has_pso (group_experiments exps)).
  assert (Hf : length (filter has_pso items)
               = length (filter has_pso (group_experiments exps))).
  { apply Permutation_length. now apply filter_permutation. }
  assert (Hn : length items = length (group_experiments exps))
    by now apply Permutation_length.
  rewrite Hf, Hn. tauto.
Qed.

(** X14. The PSO mean of a row is taken over all PSO records of its
    configuration in the input, and its task count is that of the first
    of them. *)
Theorem rows_of_input (exps : list experiment) (c : columns) :
  aggregate np_mean exps = Ok c ->
  exists items,
    sorted_configs (group_experiments exps) = Ok items /\
    Forall (fun x => PSO (snd x) = filter (pso_for (fst x)) exps) items /\
    pso_avg_makespan c
    = map (fun x => np_mean (map Makespan (filter (pso_for (fst x)) exps)))
          (rows items) /\
    task_counts c
    = map (fun x => match first_pso (fst x) exps with
                    | Some e => TaskCount e
                    | None => 0
                    end) (rows items).
Proof.
  intros H. destruct (aggregate_items _ _ _ H) as [items [Hs Hl]].
  destruct (sorted_configs_ok _ _ Hs) as (sp & _ & Hp & _).
  destruct (keys_group_experiments exps) as [Hnd _].
  assert (Hpso : Forall (fun x => PSO (snd x) = filter (pso_for (fst x)) exps) items).
  { apply Forall_forall. intros [k g] Hin. cbn [fst snd].
    unfold group_experiments in *.
    rewrite <- (app_nil_l (filter (pso_for k) exps)).
    change (@nil experiment) with (pso_trials k []).
    rewrite <- pso_trials_fold. unfold pso_trials.
    rewrite (get_in k g); [reflexivity|exact Hnd|].
    eapply Permutation_in; [exact Hp|exact Hin]. }
  exists items. split; [exact Hs|]. split; [exact Hpso|].
  apply loop_columns in Hl. subst c. cbn.
  rewrite Forall_forall in Hpso. split.
  - apply map_ext_in. intros x Hx. apply filter_In in Hx.
    unfold trial_makespans. now rewrite (Hpso x (proj1 Hx)).
  - apply map_ext_in. intros x Hx. apply filter_In in Hx.
    unfold first_tasks, first_pso. rewrite (Hpso x (proj1 Hx)).
    generalize (pso_for (fst x)). intros p. clear.
    induction exps as [|e l IH]; [reflexivity|]. simpl.
    destruct (p e); [reflexivity|exact IH].
Qed.

End Outcome.

(** * Instances of the further properties *)

(** X2, instance: the two groups with the ordinal 2 keep their order. *)
Lemma sorted_configs_stable_witness :
  exists items,
    sorted_configs (group_experiments mixed) = Ok items /\
    map fst (filter (has_ordinal 2) items) = [lit "Run 2: B"; lit "Set 2: C"].
Proof.
  destruct (sorted_configs (group_experiments mixed)) as [items|e] eqn:Hs;
    [|discriminate Hs].
  exists items. split; [reflexivity|].
  destruct (sorted_configs_stable _ _ Hs) as [_ Hk]. rewrite Hk.
  vm_compute. reflexivity.
Defined.

(** X3, instance: the columns of the three configurations. *)
Lemma aggregate_columns_witness :
  exists c items,
    aggregate mean_seq mixed = Ok c /\
    map fst items = [lit "Run 1: A"; lit "Run 2: B"; lit "Set 2: C"] /\
    c = columns_of mean_seq items.
Proof.
  destruct (aggregate mean_seq mixed) as [c|e] eqn:Hc; [|discriminate Hc].
  destruct (aggregate_columns mean_seq mixed c Hc) as (items & Hs & Hcol).
  exists c, items. split; [reflexivity|]. split; [|exact Hcol].
  vm_compute in Hs. inversion Hs. reflexivity.
Defined.

(** X4, instance: the extremes 100 and 120 of configuration ["Run 2: B"]. *)
Lemma pso_extremes_witness :
  exists c,
    aggregate mean_seq mixed = Ok c /\
    pso_min_makespan c = [of_dyadic 80 0; of_dyadic 100 0] /\
    is_least [of_dyadic 100 0; of_dyadic 120 0] (of_dyadic 100 0).
Proof.
  destruct (aggregate mean_seq mixed) as [c|e] eqn:Hc; [|discriminate Hc].
  destruct (pso_extremes mean_seq mixed c Hc) as (items & Hs & Hmin & _).
  exists c. split; [reflexivity|].
  vm_compute in Hs. inversion Hs as [Hitems]. subst items.
  vm_compute in Hc. inversion Hc as [Hcols]. subst c.
  split; [reflexivity|].
  inversion Hmin as [|x m l l' _ Hrest]; subst.
  inversion Hrest as [|x' m' l2 l2' Hleast _]; subst.
  exact Hleast.
Defined.

(** X5, instance: the label of ["Exp 10:   a long configuration name"]. *)
Lemma label_format_witness :
  exists num name,
    lit "10: a long configuration" = num ++ lit ": " ++ name /\
    num <> [] /\ (length name <= 20)%nat /\ py_int num = Ok 10.
Proof.
  destruct (label_format (lit "Exp 10:   a long configuration name")
                         (lit "10: a long configuration"))
    as (num & name & Hl & Hne & _ & Hlen & _ & Hint).
  - vm_compute. reflexivity.
  - exists num, name. repeat split; try assumption.
    apply Hint. vm_compute. reflexivity.
Defined.

(** X6, instance: ["1:02:03.500.9"] and ["1:02:03"]. *)
Lemma third_field_parts_witness :
  time_to_seconds (VStr (lit "1:02:03.500.9"))
  = time_to_seconds (VStr (lit "1:02:03.500")) /\
  time_to_seconds (VStr (lit "1:02:03"))
  = time_to_seconds (VStr (lit "1:02:03.0")).
Proof.
  apply (third_field_parts (lit "1") (lit "02") (lit "03") (lit "500") (lit "9"));
    simpl; intros H; repeat (destruct H as [H|H]; [discriminate H|]); exact H.
Defined.

(** X7, instance: the letter [h] in the hours field. *)
Lemma foreign_char_zero_witness :
  time_to_seconds (VStr (lit "1h:00:00")) = Ok fzero.
Proof.
  apply (foreign_char_zero _ (lit "1h") (lit "00") (lit "00") "h"%char).
  - vm_compute. reflexivity.
  - left. split; [simpl; tauto|vm_compute; reflexivity].
Defined.

(** X8, instances: aligned columns, and columns without their first PSO
    entry. *)
Lemma quality_ratio_outcome_witness :
  quality_ratio two_columns = Ok [fdiv (of_dyadic 60 0) (of_dyadic 30 0)] /\
  exists c, aggregate mean_seq mixed = Ok c /\ quality_ratio c = Raise IndexError.
Proof.
  split.
  - apply (proj1 (quality_ratio_outcome two_columns)). reflexivity.
  - eexists. split; [vm_compute; reflexivity|].
    apply (proj2 (quality_ratio_outcome _)). vm_compute. discriminate.
Defined.

(** X9, instance: the only ratio is labelled 2. *)
Lemma ratio_ticks_match_witness :
  length (ratio_ticks two_columns) = 1%nat /\
  ratio_ticks two_columns = [lit "2"].
Proof.
  destruct (ratio_ticks_match two_columns [fdiv (of_dyadic 60 0) (of_dyadic 30 0)])
    as [Hlen Hticks].
  - vm_compute. reflexivity.
  - split; [exact Hlen|]. rewrite Hticks. vm_compute. reflexivity.
Defined.

(** X10, instance: a configuration string without colon. *)
Lemma aggregate_failure_witness :
  exists k,
    In k (map Configuration no_colon) /\
    ((ValueError = ValueError /\
      exists tok, ordinal_token k = Ok tok /\ py_int tok = Raise ValueError) \/
     (IndexError = IndexError /\
      (ordinal_token k = Raise IndexError \/ ~ In colon k))).
Proof.
  destruct (aggregate_failure mean_seq no_colon IndexError) as [k [Hin Hk]].
  - vm_compute. reflexivity.
  - exists k. split; [exact Hin|].
    destruct Hk as [[E _]|[_ Hk]]; [discriminate E|]. right. now split.
Defined.

(** X11, instance: the task counts 5 and 7 of two aligned
    configurations. *)
Lemma task_series_total_witness :
  exists c vs,
    aggregate mean_seq paired = Ok c /\
    StronglySorted Z.lt vs /\
    task_series c
    = Ok (vs,
          map (fun v => nth (first_pos v (task_counts c)) (pso_avg_makespan c) nan) vs,
          map (fun v => nth (first_pos v (task_counts c)) (ga_makespan c) nan) vs).
Proof.
  pose (c := match aggregate mean_seq paired with
             | Ok c => c
             | Raise _ => no_columns
             end).
  assert (Hc : aggregate mean_seq paired = Ok c) by (vm_compute; reflexivity).
  destruct (task_series_total mean_seq paired c Hc) as (vs & Hts & Hinc & _).
  - vm_compute. reflexivity.
  - exists c, vs. split; [exact Hc|]. now split.
Defined.

(** X12, instances: two configurations with PSO trials and GA values,
    and a configuration without PSO trials followed by one with both. *)
Lemma derive_outcome_witness :
  (exists c d, aggregate mean_seq paired = Ok c /\ derive c = Ok d /\
               ratio d = quotients (pso_avg_makespan c) (ga_makespan c)) /\
  (exists c, aggregate mean_seq ga_only_then_both = Ok c /\
             derive c = Raise IndexError).
Proof.
  split.
  - pose (c := match aggregate mean_seq paired with
               | Ok c => c
               | Raise _ => no_columns
               end).
    assert (Hc : aggregate mean_seq paired = Ok c) by (vm_compute; reflexivity).
    destruct (derive_outcome mean_seq paired c Hc) as [Hall _].
    + vm_compute. reflexivity.
    + destruct Hall as (d & Hd & Hr).
      * vm_compute. repeat constructor.
      * now exists c, d.
  - pose (c := match aggregate mean_seq ga_only_then_both with
               | Ok c => c
               | Raise _ => no_columns
               end).
    assert (Hc : aggregate mean_seq ga_only_then_both = Ok c)
      by (vm_compute; reflexivity).
    destruct (derive_outcome mean_seq ga_only_then_both c Hc) as [_ Hex].
    + vm_compute. reflexivity.
    + exists c. split; [exact Hc|]. apply Hex.
      vm_compute. apply Exists_cons_hd. reflexivity.
Defined.

(** X13, instance: two configurations with PSO trials. *)
Lemma alignment_condition_witness :
  exists c,
    aggregate mean_seq paired = Ok c /\
    length (pso_avg_makespan c) = length (config_names c) /\
    length (task_counts c) = length (ga_makespan c).
Proof.
  destruct (aggregate mean_seq paired) as [c|e] eqn:Hc; [|discriminate Hc].
  exists c. split; [reflexivity|].
  apply (alignment_condition mean_seq paired c Hc).
  vm_compute. repeat constructor.
Defined.

(** X14, instance: the task count 5 of ["Run 2: B"] is that of its first
    trial, not the 6 of the second. *)
Lemma rows_of_input_witness :
  exists c, aggregate mean_seq mixed = Ok c /\ task_counts c = [7; 5].
Proof.
  destruct (aggregate mean_seq mixed) as [c|e] eqn:Hc; [|discriminate Hc].
  destruct (rows_of_input mean_seq mixed c Hc) as (items & Hs & _ & _ & Htc).
  exists c. split; [reflexivity|]. rewrite Htc.
  vm_compute in Hs. inversion Hs. reflexivity.
Defined.
